(** * NMF by gradient descent: the notebook's [lossfunc], [grads] and [sgd]

    Shallow embedding of the three functions of
    [Gradient_Descent/Matrix Factorization using Gradient Descent Excercise.ipynb]
    and of the NumPy operations they call.

    Idealisation: a float64 is modelled as a real number, so rounding,
    overflow and infinities are outside the model.  The one way the code
    can still meet a NaN in exact arithmetic, the mean of an array without
    entries, is kept ([NaN] below). *)

From Stdlib Require Import Reals Lra Lia List.
From stdpp Require Import gmap strings vector.
Import ListNotations.
Local Open Scope R_scope.

(** ** Scalars *)

(** A Python float as the code's scalar results have it: a real or NaN. *)
Inductive npfloat : Type :=
| Fin (x : R)
| NaN.

Definition Rltb (x y : R) : bool := if Rlt_dec x y then true else false.

(** [np.abs] on a scalar. *)
Definition f_abs (a : npfloat) : npfloat :=
  match a with
  | Fin x => Fin (Rabs x)
  | NaN => NaN
  end.

(** [a - b] on scalars. *)
Definition f_sub (a b : npfloat) : npfloat :=
  match a, b with
  | Fin x, Fin y => Fin (x - y)
  | _, _ => NaN
  end.

(** [a < eps]; every comparison with NaN is False. *)
Definition f_lt (a : npfloat) (eps : R) : bool :=
  match a with
  | Fin x => Rltb x eps
  | NaN => false
  end.

(** [np.square] on a scalar. *)
Definition np_square (x : R) : R := x * x.

(** ** Two-dimensional arrays *)

(** A 2-D array: its [shape] and its entries.  Entries are read inside
    the shape only. *)
Record ndarray : Type := mk_ndarray {
  nrows : nat;
  ncols : nat;
  item : nat -> nat -> R
}.

Definition shape (A : ndarray) : nat * nat := (nrows A, ncols A).

(** [sum_upto n f] is f 0 + ... + f (n-1). *)
Fixpoint sum_upto (n : nat) (f : nat -> R) : R :=
  match n with
  | O => 0
  | S k => sum_upto k f + f k
  end.

(** [np.sum(A)] over all entries. *)
Definition np_sum (A : ndarray) : R :=
  sum_upto (nrows A) (fun i => sum_upto (ncols A) (fun j => item A i j)).

(** [np.matmul(A, B)] and [A @ B]: ValueError ([None]) when the inner
    dimensions differ. *)
Definition matmul (A B : ndarray) : option ndarray :=
  if (ncols A =? nrows B)%nat then
    Some {| nrows := nrows A;
            ncols := ncols B;
            item := fun i j => sum_upto (ncols A) (fun k => item A i k * item B k j) |}
  else None.

(** [A.T] *)
Definition transpose (A : ndarray) : ndarray :=
  {| nrows := ncols A; ncols := nrows A; item := fun i j => item A j i |}.

(** NumPy broadcasting of one dimension: equal lengths, or one of them 1. *)
Definition broadcast_dim (a b : nat) : option nat :=
  if (a =? b)%nat then Some a
  else if (a =? 1)%nat then Some b
  else if (b =? 1)%nat then Some a
  else None.

(** Index into an operand of length [d] along a dimension whose result has
    length [r]: an operand of length 1 is repeated. *)
Definition bidx (d r i : nat) : nat :=
  if (d =? 1)%nat && negb (r =? 1)%nat then O else i.

(** An elementwise binary operation with broadcasting; ValueError when the
    shapes cannot be broadcast together. *)
Definition elementwise (op : R -> R -> R) (A B : ndarray) : option ndarray :=
  r ← broadcast_dim (nrows A) (nrows B);
  c ← broadcast_dim (ncols A) (ncols B);
  Some {| nrows := r;
          ncols := c;
          item := fun i j =>
            op (item A (bidx (nrows A) r i) (bidx (ncols A) c j))
               (item B (bidx (nrows B) r i) (bidx (ncols B) c j)) |}.

(** [A - B] and [A + B] on arrays. *)
Definition np_sub : ndarray -> ndarray -> option ndarray := elementwise Rminus.
Definition np_add : ndarray -> ndarray -> option ndarray := elementwise Rplus.

(** [c * A] for a scalar [c]. *)
Definition scale (c : R) (A : ndarray) : ndarray :=
  {| nrows := nrows A; ncols := ncols A; item := fun i j => c * item A i j |}.

(** [np.abs(A)] on an array. *)
Definition np_abs (A : ndarray) : ndarray :=
  {| nrows := nrows A; ncols := ncols A; item := fun i j => Rabs (item A i j) |}.

(** Sum of the squared entries. *)
Definition sumsq (A : ndarray) : R :=
  sum_upto (nrows A) (fun i => sum_upto (ncols A) (fun j => item A i j * item A i j)).

(** [np.linalg.norm(A)]: the Frobenius norm of a 2-D array. *)
Definition np_linalg_norm (A : ndarray) : R := sqrt (sumsq A).

(** [np.mean(A)]: the sum of all entries over their number; NaN for an
    array without entries. *)
Definition np_mean (A : ndarray) : npfloat :=
  if (nrows A * ncols A =? 0)%nat then NaN
  else Fin (np_sum A / INR (nrows A * ncols A)).

(** ** The notebook's functions *)

(** [lossfunc(Mat, W, H, lamda)] *)
Definition lossfunc (Mat W H : ndarray) (lamda : R) : option R :=
  Mat_pred ← matmul W H;
  D1 ← np_sub Mat Mat_pred;
  D2 ← np_sub Mat Mat_pred;
  Some (0.5 * np_square (np_linalg_norm D1)
        + 0.5 * lamda * (np_square (np_linalg_norm W) + np_square (np_linalg_norm D2))).

(** [grads(Mat, W, H, lamda)] *)
Definition grads (Mat W H : ndarray) (lamda : R) : option (ndarray * ndarray) :=
  P1 ← matmul W H;
  R1 ← np_sub P1 Mat;
  G1 ← matmul R1 (transpose H);
  grad_w ← np_add G1 (scale lamda W);
  P2 ← matmul W H;
  R2 ← np_sub P2 Mat;
  G2 ← matmul (transpose W) R2;
  grad_h ← np_add G2 (scale lamda H);
  Some (grad_w, grad_h).

(** ** The random number generator *)

(** The state of [np.random]: the standard-normal variates it will hand
    out, in order. *)
Definition rng : Type := nat -> R.

(** [np.random.normal(scale=scale, size=(r, c))]: [r * c] variates, each
    [0.0 + scale * z], laid out row by row; the generator advances by as
    many. *)
Definition random_normal (scale_ : R) (r c : nat) (g : rng) : ndarray * rng :=
  ({| nrows := r; ncols := c; item := fun i j => 0 + scale_ * g (i * c + j)%nat |},
   fun k => g (r * c + k)%nat).

(** ** The loop of [sgd] *)

(** The local variables of [sgd] that live across iterations, with the
    lines printed so far. *)
Record sgd_state : Type := mk_state {
  W : ndarray;
  H : ndarray;
  i : nat;
  Error2 : npfloat;
  w_history : list ndarray;
  h_history : list ndarray;
  loss_history : list R;
  stdout : list (nat * npfloat)
}.

(** How a run ends: the value returned, an exception, or a loop still
    running when the fuel is spent. *)
Inductive outcome (A : Type) : Type :=
| Returned (a : A)
| Raised
| OutOfFuel.
Arguments Returned {A} a.
Arguments Raised {A}.
Arguments OutOfFuel {A}.

(** What [sgd] returns:
    [(W, H, loss_history, h_history, w_history, i, Error2)]. *)
Definition sgd_result : Type :=
  (ndarray * ndarray * list R * list ndarray * list ndarray * nat * npfloat)%type.

Definition result_of (st : sgd_state) : sgd_result :=
  (W st, H st, loss_history st, h_history st, w_history st, i st, Error2 st).

Section Loop.

Variable Mat : ndarray.
Variables eta lamda epsilon : R.

(** One pass through the body of [while(1)]; the boolean says whether
    the [break] is taken.  The locals [w_k] and [h_k] are assigned and
    never read; they are left out. *)
Definition sgd_body (st : sgd_state) : option (sgd_state * bool) :=
  let w_history' := w_history st ++ [W st] in
  let h_history' := h_history st ++ [H st] in
  Loss ← lossfunc Mat (W st) (H st) lamda;
  let loss_history' := loss_history st ++ [Loss] in
  '(grad_w, grad_h) ← grads Mat (W st) (H st) lamda;
  W' ← np_sub (W st) (scale eta grad_w);
  H' ← np_sub (H st) (scale eta grad_h);
  let i' := S (i st) in
  let Error1 := Error2 st in
  P ← matmul W' H';
  D ← np_sub Mat P;
  let Error2' := f_abs (np_mean D) in
  let stdout' := stdout st ++ [(i', Error2')] in
  Some ({| W := W'; H := H'; i := i'; Error2 := Error2';
           w_history := w_history'; h_history := h_history';
           loss_history := loss_history'; stdout := stdout' |},
        f_lt (f_abs (f_sub Error1 Error2')) epsilon).

(** The [while(1)] loop, run for at most [fuel] passes. *)
Fixpoint sgd_loop (fuel : nat) (st : sgd_state) : outcome sgd_state :=
  match fuel with
  | O => OutOfFuel
  | S fuel' =>
      match sgd_body st with
      | None => Raised
      | Some (st', true) => Returned st'
      | Some (st', false) => sgd_loop fuel' st'
      end
  end.

(** The state after [k] passes when no [break] is looked at. *)
Fixpoint run (k : nat) (st : sgd_state) : option sgd_state :=
  match k with
  | O => Some st
  | S k' => st' ← run k' st; fst <$> sgd_body st'
  end.

(** The error estimate after [t] passes ([Error2]); before the first
    pass it is the initial value of [Error2]. *)
Definition error_estimate (st0 : sgd_state) (t : nat) : npfloat :=
  match run t st0 with
  | Some st => Error2 st
  | None => NaN
  end.

(** The test of the [if] at the end of pass [t]. *)
Definition converged (st0 : sgd_state) (t : nat) : bool :=
  f_lt (f_abs (f_sub (error_estimate st0 (t - 1)) (error_estimate st0 t))) epsilon.

End Loop.

(** The state [sgd] enters the loop with. *)
Definition init_state (Mat : ndarray) (num_topics : nat) (g : rng) : sgd_state :=
  let '(m, n) := shape Mat in
  let '(RW, g1) := random_normal 0.01 m num_topics g in
  let '(RH, g2) := random_normal 0.01 num_topics n g1 in
  {| W := np_abs RW; H := np_abs RH; i := O; Error2 := Fin 0;
     w_history := []; h_history := []; loss_history := []; stdout := [] |}.

(** [sgd(Mat, num_topics, eta, lamda, epsilon)], the loop cut off after
    [fuel] passes. *)
Definition sgd (fuel : nat) (Mat : ndarray) (num_topics : nat)
    (eta lamda epsilon : R) (g : rng) : outcome sgd_result :=
  match sgd_loop Mat eta lamda epsilon fuel (init_state Mat num_topics g) with
  | Returned st => Returned (result_of st)
  | Raised => Raised
  | OutOfFuel => OutOfFuel
  end.

(** Default arguments of [sgd]. *)
Definition eta_default : R := 0.1.
Definition lamda_default : R := 0.5.
Definition epsilon_default : R := 1e-05.

(** The objective as the notebook's text and the specification state it,
    [F(W,H) = 1/2 |V - WH|^2 + lamda/2 (|W|^2 + |H|^2)] with Frobenius
    norms; [lossfunc] is compared with it below. *)
Definition objective_F (V W H : ndarray) (lamda : R) : option R :=
  P ← matmul W H;
  D ← np_sub V P;
  Some (1 / 2 * sumsq D + lamda / 2 * (sumsq W + sumsq H)).

(** ** The same code over an object store

    Python passes arrays by reference.  Here every array lives in a store
    under an object identity, every NumPy call that yields an array
    allocates a new object, and variables and the history lists hold
    identities.  The code contains no in-place operation on an array
    (no [W -= ...], no [out=], no item assignment).  [H.T] and [W.T] are
    views on the buffers of [H] and [W]; nothing is written through them,
    and they are objects of their own here. *)
Module Heap.

Definition loc : Type := positive.
Abbreviation store := (gmap positive ndarray).

(** A new object holding [a]. *)
Definition alloc (a : ndarray) (s : store) : loc * store :=
  let l := fresh (dom s) in (l, <[l := a]> s).

(** A NumPy call with one array argument, total on values. *)
Definition call1 (f : ndarray -> ndarray) (l : loc) (s : store) : option (loc * store) :=
  a ← s !! l;
  Some (alloc (f a) s).

(** A NumPy call with two array arguments that may raise. *)
Definition call2 (f : ndarray -> ndarray -> option ndarray) (l1 l2 : loc) (s : store)
  : option (loc * store) :=
  a ← s !! l1;
  b ← s !! l2;
  c ← f a b;
  Some (alloc c s).

(** A NumPy call from an array to a scalar. *)
Definition read {A : Type} (f : ndarray -> A) (l : loc) (s : store) : option A :=
  f <$> s !! l.

Definition lossfunc (Mat W H : loc) (lamda : R) (s : store) : option (R * store) :=
  '(Mat_pred, s) ← call2 matmul W H s;
  '(D1, s) ← call2 np_sub Mat Mat_pred s;
  n1 ← read np_linalg_norm D1 s;
  nW ← read np_linalg_norm W s;
  '(D2, s) ← call2 np_sub Mat Mat_pred s;
  n2 ← read np_linalg_norm D2 s;
  Some (0.5 * np_square n1 + 0.5 * lamda * (np_square nW + np_square n2), s).

Definition grads (Mat W H : loc) (lamda : R) (s : store) : option (loc * loc * store) :=
  '(P1, s) ← call2 matmul W H s;
  '(R1, s) ← call2 np_sub P1 Mat s;
  '(HT, s) ← call1 transpose H s;
  '(G1, s) ← call2 matmul R1 HT s;
  '(LW, s) ← call1 (scale lamda) W s;
  '(grad_w, s) ← call2 np_add G1 LW s;
  '(WT, s) ← call1 transpose W s;
  '(P2, s) ← call2 matmul W H s;
  '(R2, s) ← call2 np_sub P2 Mat s;
  '(G2, s) ← call2 matmul WT R2 s;
  '(LH, s) ← call1 (scale lamda) H s;
  '(grad_h, s) ← call2 np_add G2 LH s;
  Some (grad_w, grad_h, s).

Record sgd_state : Type := mk_state {
  W : loc;
  H : loc;
  i : nat;
  Error2 : npfloat;
  w_history : list loc;
  h_history : list loc;
  loss_history : list R;
  stdout : list (nat * npfloat)
}.

Definition sgd_result : Type :=
  (loc * loc * list R * list loc * list loc * nat * npfloat)%type.

Definition result_of (st : sgd_state) : sgd_result :=
  (W st, H st, loss_history st, h_history st, w_history st, i st, Error2 st).

(** The identities of the returned [W] and [H]. *)
Definition result_W (res : sgd_result) : loc :=
  let '(W_, _, _, _, _, _, _) := res in W_.
Definition result_H (res : sgd_result) : loc :=
  let '(_, H_, _, _, _, _, _) := res in H_.

Section Loop.

Variable Mat : loc.
Variables eta lamda epsilon : R.

Definition sgd_body (st : sgd_state) (s : store) : option (sgd_state * bool * store) :=
  let w_history' := w_history st ++ [W st] in
  let h_history' := h_history st ++ [H st] in
  '(Loss, s) ← lossfunc Mat (W st) (H st) lamda s;
  let loss_history' := loss_history st ++ [Loss] in
  '(grad_w, grad_h, s) ← grads Mat (W st) (H st) lamda s;
  '(EW, s) ← call1 (scale eta) grad_w s;
  '(W', s) ← call2 np_sub (W st) EW s;
  '(EH, s) ← call1 (scale eta) grad_h s;
  '(H', s) ← call2 np_sub (H st) EH s;
  let i' := S (i st) in
  let Error1 := Error2 st in
  '(P, s) ← call2 matmul W' H' s;
  '(D, s) ← call2 np_sub Mat P s;
  m ← read np_mean D s;
  let Error2' := f_abs m in
  let stdout' := stdout st ++ [(i', Error2')] in
  Some ({| W := W'; H := H'; i := i'; Error2 := Error2';
           w_history := w_history'; h_history := h_history';
           loss_history := loss_history'; stdout := stdout' |},
        f_lt (f_abs (f_sub Error1 Error2')) epsilon, s).

Fixpoint sgd_loop (fuel : nat) (st : sgd_state) (s : store)
  : outcome (sgd_state * store) :=
  match fuel with
  | O => OutOfFuel
  | S fuel' =>
      match sgd_body st s with
      | None => Raised
      | Some (st', true, s') => Returned (st', s')
      | Some (st', false, s') => sgd_loop fuel' st' s'
      end
  end.

End Loop.

(** The prologue of [sgd]: [Mat.shape] is read, and [W] and [H] are the
    results of [np.abs] on two fresh random arrays. *)
Definition init_state (Mat : loc) (num_topics : nat) (g : rng) (s : store)
  : option (sgd_state * store) :=
  '(m, n) ← read shape Mat s;
  let '(RW, g1) := random_normal 0.01 m num_topics g in
  let '(lRW, s) := alloc RW s in
  '(W0, s) ← call1 np_abs lRW s;
  let '(RH, g2) := random_normal 0.01 num_topics n g1 in
  let '(lRH, s) := alloc RH s in
  '(H0, s) ← call1 np_abs lRH s;
  Some ({| W := W0; H := H0; i := O; Error2 := Fin 0;
           w_history := []; h_history := []; loss_history := []; stdout := [] |}, s).

Definition sgd (fuel : nat) (Mat : loc) (num_topics : nat)
    (eta lamda epsilon : R) (g : rng) (s : store) : outcome (sgd_result * store) :=
  match init_state Mat num_topics g s with
  | None => Raised
  | Some (st0, s0) =>
      match sgd_loop Mat eta lamda epsilon fuel st0 s0 with
      | Returned (st, s') => Returned (result_of st, s')
      | Raised => Raised
      | OutOfFuel => OutOfFuel
      end
  end.

End Heap.

(** ** Vocabulary of the statements *)

(** The factors of [st] have the shapes (m,d) and (d,n) for [Mat] of
    shape (m,n). *)
Definition shaped (Mat : ndarray) (d : nat) (st : sgd_state) : Prop :=
  shape (W st) = (nrows Mat, d) /\ shape (H st) = (d, ncols Mat).

(** Entry (r,c) of the product [W H]. *)
Definition prod_entry (W H : ndarray) (r c : nat) : R :=
  sum_upto (ncols W) (fun l => item W r l * item H l c).

(** Entry (r,c) of [(WH - V) H^T + lamda W]. *)
Definition grad_w_entry (V W H : ndarray) (lamda : R) (r c : nat) : R :=
  sum_upto (ncols V) (fun k => (prod_entry W H r k - item V r k) * item H c k)
  + lamda * item W r c.

(** Entry (r,c) of [W^T (WH - V) + lamda H]. *)
Definition grad_h_entry (V W H : ndarray) (lamda : R) (r c : nat) : R :=
  sum_upto (nrows V) (fun k => item W k r * (prod_entry W H k c - item V k c))
  + lamda * item H r c.

(** The mean of the entries of the residual [V - WH], signs kept; NaN when
    [V] has no entry. *)
Definition residual_mean (V W H : ndarray) : npfloat :=
  if (nrows V * ncols V =? 0)%nat then NaN
  else Fin (sum_upto (nrows V) (fun r =>
              sum_upto (ncols V) (fun c => item V r c - prod_entry W H r c))
            / INR (nrows V * ncols V)).

(** Two successive error estimates are numbers less than [eps] apart. *)
Definition delta_below (e_prev e_cur : npfloat) (eps : R) : Prop :=
  exists x y, e_cur = Fin x /\ e_prev = Fin y /\ Rabs (x - y) < eps.

(** The squared Frobenius norm of the residual [V - WH], entry by entry. *)
Definition residual_sumsq (V W H : ndarray) : R :=
  sum_upto (nrows V) (fun r =>
    sum_upto (ncols V) (fun c =>
      (item V r c - prod_entry W H r c) * (item V r c - prod_entry W H r c))).

(** The value of [lossfunc] as a function of the single entry of a 1-by-1
    [H]. *)
Definition loss_in_h (V W : ndarray) (lamda : R) (h : R) : R :=
  default 0 (lossfunc V W {| nrows := 1; ncols := 1; item := fun _ _ => h |} lamda).

(** The value of [objective_F] as a function of the same entry. *)
Definition objective_in_h (V W : ndarray) (lamda : R) (h : R) : R :=
  default 0 (objective_F V W {| nrows := 1; ncols := 1; item := fun _ _ => h |} lamda).

(** The loop state in which [sgd] would start from the factors [W0], [H0]. *)
Definition state_of (W0 H0 : ndarray) : sgd_state :=
  {| W := W0; H := H0; i := O; Error2 := Fin 0;
     w_history := []; h_history := []; loss_history := []; stdout := [] |}.

(** "The loss a pass records is the loss at the factors it produces." *)
Definition records_post_update_loss
    (V : ndarray) (eta lamda epsilon : R) (st : sgd_state) : Prop :=
  forall st' b,
    sgd_body V eta lamda epsilon st = Some (st', b) ->
    exists l, lossfunc V (W st') (H st') lamda = Some l /\
              loss_history st' = loss_history st ++ [l].

(** "The error estimate of a pass is the signed mean of the residual." *)
Definition estimate_is_signed_mean
    (V : ndarray) (eta lamda epsilon : R) (st : sgd_state) : Prop :=
  forall st' b,
    sgd_body V eta lamda epsilon st = Some (st', b) ->
    Error2 st' = residual_mean V (W st') (H st').

(** The components [W], [H] and [i] of the tuple [sgd] returns. *)
Definition result_W (res : sgd_result) : ndarray :=
  let '(W_, _, _, _, _, _, _) := res in W_.
Definition result_H (res : sgd_result) : ndarray :=
  let '(_, H_, _, _, _, _, _) := res in H_.
Definition result_i (res : sgd_result) : nat :=
  let '(_, _, _, _, _, n, _) := res in n.

(** Every entry of [A] is nonnegative. *)
Definition nonneg (A : ndarray) : Prop :=
  forall r c, (r < nrows A)%nat -> (c < ncols A)%nat -> 0 <= item A r c.

(** The r-by-c array filled with [x]. *)
Definition full (r c : nat) (x : R) : ndarray :=
  {| nrows := r; ncols := c; item := fun _ _ => x |}.

(** The 1-by-2 array [[a, b]]. *)
Definition row2 (a b : R) : ndarray :=
  {| nrows := 1; ncols := 2; item := fun _ c => match c with O => a | _ => b end |}.

(** A state on 1-by-1 arrays whose two factors hold the same entry, of
    square at least 4, and whose error estimate is at most that square. *)
Definition blown_up (st : sgd_state) : Prop :=
  shaped (full 1 1 0) 1 st /\
  item (H st) 0 0 = item (W st) 0 0 /\
  4 <= item (W st) 0 0 * item (W st) 0 0 /\
  exists e, Error2 st = Fin e /\ 0 <= e <= item (W st) 0 0 * item (W st) 0 0.

(** The store-level state [hst] stands for the state [st] of values: its
    identities are bound in [s] to the arrays of [st], and the scalars
    agree. *)
Definition repr (s : Heap.store) (hst : Heap.sgd_state) (st : sgd_state) : Prop :=
  s !! Heap.W hst = Some (W st) /\
  s !! Heap.H hst = Some (H st) /\
  Heap.i hst = i st /\
  Heap.Error2 hst = Error2 st /\
  Heap.loss_history hst = loss_history st /\
  Heap.stdout hst = stdout st /\
  Forall2 (fun l a => s !! l = Some a) (Heap.w_history hst) (w_history st) /\
  Forall2 (fun l a => s !! l = Some a) (Heap.h_history hst) (h_history st).

(** ** [show_topics]

    The notebook's globals [vocab] and [num_top_words] and the library
    routine [np.argsort] are made explicit: [num_top_words] is the constant
    the notebook sets, [vocab] is an argument, and [np.argsort] is an
    argument too, since NumPy does not fix the order it gives to equal
    values. *)

Definition num_top_words : nat := 8.

(** Row [r] of a 2-D array; iterating over the array yields its rows. *)
Definition row (a : ndarray) (r : nat) : list R :=
  item a r <$> seq 0 (ncols a).

Definition rows (a : ndarray) : list (list R) :=
  row a <$> seq 0 (nrows a).

(** What [np.argsort(t)] may return: the indices of [t], each once, in an
    order in which the values do not decrease. *)
Definition is_argsort (t : list R) (p : list nat) : Prop :=
  p ≡ₚ seq 0 (length t) /\
  forall i j x y, (i <= j)%nat -> p !! i = Some x -> p !! j = Some y ->
    default 0 (t !! x) <= default 0 (t !! y).

Section ShowTopics.

Variable argsort : list R -> list nat.
Variable vocab : list String.string.

(** [np.argsort(t)[:-num_top_words-1:-1]]: from the last index backwards,
    stopping before the one [num_top_words + 1] from the end. *)
Definition top_indices (t : list R) : list nat :=
  take num_top_words (reverse (argsort t)).

(** The lambda [top_words]; [vocab[i]] raises IndexError ([None]) past
    the end of [vocab]. *)
Definition top_words (t : list R) : option (list String.string) :=
  mapM (fun i => vocab !! i) (top_indices t).

Definition show_topics (a : ndarray) : option (list String.string) :=
  topic_words ← mapM top_words (rows a);
  Some (String.concat " "%string <$> topic_words).

End ShowTopics.

(** ** [rmse] of the notebook [Recommender System with SVD]

    The notebook calls [rmse] with a pandas Series and a list of the same
    length; [true - pred] is then the entrywise difference.  The equal
    lengths are part of the type here, and operands of different lengths
    are outside the model.  [true_] stands for the parameter [true]. *)

(** Python's [sum] of a list of numbers: from 0, adding from the left. *)
Definition py_sum (l : list R) : R := foldl Rplus 0 l.

(** [rmse(true, pred)]; the division raises ZeroDivisionError ([None])
    when [len(x)] is 0. *)
Definition rmse {n : nat} (true_ pred : vec R n) : option R :=
  let x := vec_to_list (vzip_with Rminus true_ pred) in
  if (length x =? 0)%nat then None
  else Some (py_sum ((fun xi => xi * xi) <$> x) / INR (length x)).

(** ** Vocabulary of the further properties *)

(** The remaining components of the tuple [sgd] returns. *)
Definition result_loss_history (res : sgd_result) : list R :=
  let '(_, _, lh, _, _, _, _) := res in lh.
Definition result_h_history (res : sgd_result) : list ndarray :=
  let '(_, _, _, hh, _, _, _) := res in hh.
Definition result_w_history (res : sgd_result) : list ndarray :=
  let '(_, _, _, _, wh, _, _) := res in wh.
Definition result_Error (res : sgd_result) : npfloat :=
  let '(_, _, _, _, _, _, e) := res in e.

(** Two lengths that NumPy broadcasts together. *)
Definition broadcastable (a b : nat) : Prop := a = b \/ a = 1%nat \/ b = 1%nat.

(** [A] and [B] have the same shape and the same entries. *)
Definition same_entries (A B : ndarray) : Prop :=
  shape A = shape B /\
  forall r c, (r < nrows A)%nat -> (c < ncols A)%nat -> item A r c = item B r c.

(** [(W', H')] is one update of [sgd] away from [(Wk, Hk)]. *)
Definition updated (V : ndarray) (eta lamda : R) (Wk Hk W' H' : ndarray) : Prop :=
  shape W' = shape Wk /\ shape H' = shape Hk /\
  (forall r c, item W' r c = item Wk r c - eta * grad_w_entry V Wk Hk lamda r c) /\
  (forall r c, item H' r c = item Hk r c - eta * grad_h_entry V Wk Hk lamda r c).

(** Both gradients vanish at [(Wk, Hk)]. *)
Definition stationary (V : ndarray) (lamda : R) (Wk Hk : ndarray) : Prop :=
  (forall r c, (r < nrows Wk)%nat -> (c < ncols Wk)%nat ->
     grad_w_entry V Wk Hk lamda r c = 0) /\
  (forall r c, (r < nrows Hk)%nat -> (c < ncols Hk)%nat ->
     grad_h_entry V Wk Hk lamda r c = 0).

(** What the loop keeps true of its bookkeeping: one entry per pass in
    each history and one printed line per pass. *)
Definition counted (st : sgd_state) : Prop :=
  length (loss_history st) = i st /\
  length (w_history st) = i st /\
  length (h_history st) = i st /\
  length (stdout st) = i st.

(** Every recorded loss is [lossfunc] at the factors recorded with it. *)
Definition losses_recorded (Mat : ndarray) (lamda : R) (st : sgd_state) : Prop :=
  counted st /\
  forall k Wk Hk,
    w_history st !! k = Some Wk -> h_history st !! k = Some Hk ->
    exists l, loss_history st !! k = Some l /\ lossfunc Mat Wk Hk lamda = Some l.

(** The histories followed by the current factors start at [(W0, H0)] and
    advance by one update at a time. *)
Definition trajectory (Mat : ndarray) (eta lamda : R) (d : nat) (W0 H0 : ndarray)
    (st : sgd_state) : Prop :=
  shaped Mat d st /\ counted st /\
  (w_history st ++ [W st]) !! O = Some W0 /\
  (h_history st ++ [H st]) !! O = Some H0 /\
  forall k Wk Hk W' H',
    (w_history st ++ [W st]) !! k = Some Wk ->
    (h_history st ++ [H st]) !! k = Some Hk ->
    (w_history st ++ [W st]) !! S k = Some W' ->
    (h_history st ++ [H st]) !! S k = Some H' ->
    updated Mat eta lamda Wk Hk W' H'.

(** The identities in the histories of the tuple returned over the
    store. *)
Definition heap_result_h_history (res : Heap.sgd_result) : list Heap.loc :=
  let '(_, _, _, hh, _, _, _) := res in hh.
Definition heap_result_w_history (res : Heap.sgd_result) : list Heap.loc :=
  let '(_, _, _, _, wh, _, _) := res in wh.

(** The factors of [hst] are two objects of [s] made after [s0], and the
    histories hold other objects of [s], made after [s0] as well. *)
Definition separate (s0 s : Heap.store) (hst : Heap.sgd_state) : Prop :=
  s0 ⊆ s /\
  (Heap.W hst ∈ dom s) /\ (Heap.H hst ∈ dom s) /\
  (Heap.W hst ∉ dom s0) /\ (Heap.H hst ∉ dom s0) /\
  Heap.W hst <> Heap.H hst /\
  forall l, (l ∈ Heap.w_history hst) \/ (l ∈ Heap.h_history hst) ->
    (l ∈ dom s) /\ (l ∉ dom s0) /\ l <> Heap.W hst /\ l <> Heap.H hst.

(** * Properties *)

(** ** Sums, norms and shapes *)

Lemma Rltb_true (x y : R) : Rltb x y = true <-> x < y.
Proof. unfold Rltb. destruct (Rlt_dec x y); split; intros; try lra; congruence. Qed.

Lemma Rltb_false (x y : R) : Rltb x y = false <-> y <= x.
Proof. unfold Rltb. destruct (Rlt_dec x y); split; intros; try lra; congruence. Qed.

Lemma sum_upto_ext (n : nat) (f g : nat -> R) :
  (forall k, (k < n)%nat -> f k = g k) -> sum_upto n f = sum_upto n g.
Proof.
  induction n as [|n IH]; intros Hfg; simpl; [reflexivity|].
  rewrite IH, Hfg by (intros; try apply Hfg; lia). reflexivity.
Qed.

Lemma sum_upto_nonneg (n : nat) (f : nat -> R) :
  (forall k, 0 <= f k) -> 0 <= sum_upto n f.
Proof.
  intros Hf. induction n as [|n IH]; simpl; [lra|].
  specialize (Hf n). lra.
Qed.

Lemma sumsq_nonneg (A : ndarray) : 0 <= sumsq A.
Proof.
  unfold sumsq. apply sum_upto_nonneg; intros r.
  apply sum_upto_nonneg; intros c. nra.
Qed.

(** [np.square(np.linalg.norm(A))] is the sum of the squared entries. *)
Lemma square_norm (A : ndarray) : np_square (np_linalg_norm A) = sumsq A.
Proof.
  unfold np_square, np_linalg_norm. apply sqrt_sqrt, sumsq_nonneg.
Qed.

Lemma matmul_Some (A B C : ndarray) :
  matmul A B = Some C ->
  ncols A = nrows B /\ nrows C = nrows A /\ ncols C = ncols B /\
  forall r c, item C r c = sum_upto (ncols A) (fun k => item A r k * item B k c).
Proof.
  unfold matmul. destruct (Nat.eqb_spec (ncols A) (nrows B)) as [e|]; [|discriminate].
  intros [= <-]. simpl. auto.
Qed.

Lemma matmul_total (A B : ndarray) :
  ncols A = nrows B -> exists C, matmul A B = Some C.
Proof.
  intros e. unfold matmul. rewrite e, Nat.eqb_refl. eauto.
Qed.

Lemma broadcast_dim_same (a : nat) : broadcast_dim a a = Some a.
Proof. unfold broadcast_dim. now rewrite Nat.eqb_refl. Qed.

Lemma bidx_same (d k : nat) : bidx d d k = k.
Proof. unfold bidx. now destruct (d =? 1)%nat. Qed.

Lemma elementwise_Some (op : R -> R -> R) (A B C : ndarray) :
  nrows A = nrows B -> ncols A = ncols B ->
  elementwise op A B = Some C ->
  nrows C = nrows A /\ ncols C = ncols A /\
  forall r c, item C r c = op (item A r c) (item B r c).
Proof.
  intros er ec. unfold elementwise. rewrite <- er, <- ec, !broadcast_dim_same.
  simpl. intros [= <-]. simpl. repeat split; trivial.
  intros r c. now rewrite !bidx_same.
Qed.

Lemma elementwise_total (op : R -> R -> R) (A B : ndarray) :
  nrows A = nrows B -> ncols A = ncols B -> exists C, elementwise op A B = Some C.
Proof.
  intros er ec. unfold elementwise. rewrite <- er, <- ec, !broadcast_dim_same.
  simpl. eauto.
Qed.

(** [lossfunc] in terms of the sums of squares, whatever the shapes. *)
Lemma lossfunc_unfold (Mat W H : ndarray) (lamda : R) :
  lossfunc Mat W H lamda =
    (P ← matmul W H;
     D ← np_sub Mat P;
     Some (1 / 2 * sumsq D + lamda / 2 * (sumsq W + sumsq D))).
Proof.
  unfold lossfunc. destruct (matmul W H) as [P|]; simpl; [|reflexivity].
  destruct (np_sub Mat P) as [D|]; simpl; [|reflexivity].
  rewrite !square_norm. f_equal. lra.
Qed.

(** ** One pass of the loop *)

Section Body.

Variable Mat : ndarray.
Variables eta lamda epsilon : R.

Lemma grads_spec (Wk Hk : ndarray) (d : nat) :
  shape Wk = (nrows Mat, d) -> shape Hk = (d, ncols Mat) ->
  exists gw gh,
    grads Mat Wk Hk lamda = Some (gw, gh) /\
    shape gw = (nrows Mat, d) /\ shape gh = (d, ncols Mat) /\
    (forall r c, item gw r c = grad_w_entry Mat Wk Hk lamda r c) /\
    (forall r c, item gh r c = grad_h_entry Mat Wk Hk lamda r c).
Proof.
  unfold shape. intros [= HWr HWc] [= HHr HHc]. unfold grads.
  destruct (matmul_total Wk Hk) as [P HP]; [congruence|].
  destruct (matmul_Some _ _ _ HP) as (_ & HPr & HPc & HPi).
  rewrite HP; cbn [mbind option_bind].
  destruct (elementwise_total Rminus P Mat) as [R1 HR1]; [congruence..|].
  destruct (elementwise_Some Rminus P Mat R1 ltac:(congruence) ltac:(congruence) HR1)
    as (HR1r & HR1c & HR1i).
  change (np_sub P Mat = Some R1) in HR1.
  rewrite HR1; cbn [mbind option_bind].
  destruct (matmul_total R1 (transpose Hk)) as [G1 HG1]; [simpl; congruence|].
  destruct (matmul_Some _ _ _ HG1) as (_ & HG1r & HG1c & HG1i). simpl in HG1c.
  rewrite HG1; cbn [mbind option_bind].
  destruct (elementwise_total Rplus G1 (scale lamda Wk)) as [gw Hgw];
    [simpl; congruence..|].
  destruct (elementwise_Some Rplus G1 (scale lamda Wk) gw
              ltac:(simpl; congruence) ltac:(simpl; congruence) Hgw)
    as (Hgwr & Hgwc & Hgwi).
  change (np_add G1 (scale lamda Wk) = Some gw) in Hgw.
  rewrite Hgw; cbn [mbind option_bind].
  destruct (matmul_total (transpose Wk) R1) as [G2 HG2]; [simpl; congruence|].
  destruct (matmul_Some _ _ _ HG2) as (_ & HG2r & HG2c & HG2i). simpl in HG2r.
  rewrite HG2; cbn [mbind option_bind].
  destruct (elementwise_total Rplus G2 (scale lamda Hk)) as [gh Hgh];
    [simpl; congruence..|].
  destruct (elementwise_Some Rplus G2 (scale lamda Hk) gh
              ltac:(simpl; congruence) ltac:(simpl; congruence) Hgh)
    as (Hghr & Hghc & Hghi).
  change (np_add G2 (scale lamda Hk) = Some gh) in Hgh.
  rewrite Hgh; cbn [mbind option_bind].
  exists gw, gh. split; [reflexivity|].
  split; [f_equal; congruence|]. split; [f_equal; congruence|]. split.
  - intros r c. rewrite Hgwi, HG1i. simpl. unfold grad_w_entry. f_equal.
    replace (ncols R1) with (ncols Mat) by congruence.
    apply sum_upto_ext; intros k _. now rewrite HR1i, HPi.
  - intros r c. rewrite Hghi, HG2i. simpl. unfold grad_h_entry. f_equal.
    replace (nrows Wk) with (nrows Mat) by congruence.
    apply sum_upto_ext; intros k _. now rewrite HR1i, HPi.
Qed.

Lemma lossfunc_total (Wk Hk : ndarray) (d : nat) :
  shape Wk = (nrows Mat, d) -> shape Hk = (d, ncols Mat) ->
  exists l, lossfunc Mat Wk Hk lamda = Some l.
Proof.
  unfold shape. intros [= HWr HWc] [= HHr HHc]. rewrite lossfunc_unfold.
  destruct (matmul_total Wk Hk) as [P HP]; [congruence|].
  destruct (matmul_Some _ _ _ HP) as (_ & HPr & HPc & _).
  rewrite HP; cbn [mbind option_bind].
  destruct (elementwise_total Rminus Mat P) as [D HD]; [congruence..|].
  change (np_sub Mat P = Some D) in HD.
  rewrite HD; cbn [mbind option_bind]. eauto.
Qed.

(** What a pass that does not raise has computed. *)
Lemma sgd_body_inv (st st' : sgd_state) (b : bool) :
  sgd_body Mat eta lamda epsilon st = Some (st', b) ->
  exists Loss gw gh P D,
    lossfunc Mat (W st) (H st) lamda = Some Loss /\
    grads Mat (W st) (H st) lamda = Some (gw, gh) /\
    np_sub (W st) (scale eta gw) = Some (W st') /\
    np_sub (H st) (scale eta gh) = Some (H st') /\
    matmul (W st') (H st') = Some P /\
    np_sub Mat P = Some D /\
    Error2 st' = f_abs (np_mean D) /\
    i st' = S (i st) /\
    loss_history st' = loss_history st ++ [Loss] /\
    w_history st' = w_history st ++ [W st] /\
    h_history st' = h_history st ++ [H st] /\
    stdout st' = stdout st ++ [(S (i st), Error2 st')] /\
    b = f_lt (f_abs (f_sub (Error2 st) (Error2 st'))) epsilon.
Proof.
  unfold sgd_body.
  destruct (lossfunc Mat (W st) (H st) lamda) as [Loss|]; [|discriminate].
  cbn [mbind option_bind].
  destruct (grads Mat (W st) (H st) lamda) as [[gw gh]|]; [|discriminate].
  cbn [mbind option_bind].
  destruct (np_sub (W st) (scale eta gw)) as [W'|] eqn:HW'; [|discriminate].
  cbn [mbind option_bind].
  destruct (np_sub (H st) (scale eta gh)) as [H'|] eqn:HH'; [|discriminate].
  cbn [mbind option_bind].
  destruct (matmul W' H') as [P|] eqn:HP; [|discriminate].
  cbn [mbind option_bind].
  destruct (np_sub Mat P) as [D|] eqn:HD; [|discriminate].
  cbn [mbind option_bind].
  intros [= <- <-]. cbn.
  exists Loss, gw, gh, P, D. repeat split; assumption.
Qed.

(** With factors of the right shapes a pass raises nothing, keeps the
    shapes and moves each factor against its gradient. *)
Lemma sgd_body_spec (st : sgd_state) (d : nat) :
  shaped Mat d st ->
  exists st' b,
    sgd_body Mat eta lamda epsilon st = Some (st', b) /\
    shaped Mat d st' /\
    (forall r c, item (W st') r c =
       item (W st) r c - eta * grad_w_entry Mat (W st) (H st) lamda r c) /\
    (forall r c, item (H st') r c =
       item (H st) r c - eta * grad_h_entry Mat (W st) (H st) lamda r c).
Proof.
  intros [HW HH].
  destruct (lossfunc_total _ _ _ HW HH) as [Loss HLoss].
  destruct (grads_spec _ _ _ HW HH) as (gw & gh & Hg & Hgw & Hgh & Hgwi & Hghi).
  unfold shape in HW, HH, Hgw, Hgh.
  injection HW as HWr HWc. injection HH as HHr HHc.
  injection Hgw as Hgwr Hgwc. injection Hgh as Hghr Hghc.
  unfold sgd_body. rewrite HLoss, Hg. cbn [mbind option_bind].
  destruct (elementwise_total Rminus (W st) (scale eta gw)) as [W' HW'];
    [simpl; congruence..|].
  destruct (elementwise_Some Rminus (W st) (scale eta gw) W'
              ltac:(simpl; congruence) ltac:(simpl; congruence) HW')
    as (HW'r & HW'c & HW'i).
  change (np_sub (W st) (scale eta gw) = Some W') in HW'.
  rewrite HW'; cbn [mbind option_bind].
  destruct (elementwise_total Rminus (H st) (scale eta gh)) as [H' HH'];
    [simpl; congruence..|].
  destruct (elementwise_Some Rminus (H st) (scale eta gh) H'
              ltac:(simpl; congruence) ltac:(simpl; congruence) HH')
    as (HH'r & HH'c & HH'i).
  change (np_sub (H st) (scale eta gh) = Some H') in HH'.
  rewrite HH'; cbn [mbind option_bind].
  assert (Hin : ncols W' = nrows H') by (rewrite HW'c, HH'r, HWc, HHr; reflexivity).
  destruct (matmul_total W' H' Hin) as [P HP].
  destruct (matmul_Some _ _ _ HP) as (_ & HPr & HPc & _).
  rewrite HP; cbn [mbind option_bind].
  assert (Hr : nrows Mat = nrows P) by (rewrite HPr, HW'r, HWr; reflexivity).
  assert (Hc : ncols Mat = ncols P) by (rewrite HPc, HH'c, HHc; reflexivity).
  destruct (elementwise_total Rminus Mat P Hr Hc) as [D HD].
  change (np_sub Mat P = Some D) in HD.
  rewrite HD; cbn [mbind option_bind].
  eexists _, _. split; [reflexivity|]. cbn. split; [|split].
  - unfold shaped, shape; cbn. split; f_equal; congruence.
  - intros r c. rewrite HW'i. simpl. now rewrite Hgwi.
  - intros r c. rewrite HH'i. simpl. now rewrite Hghi.
Qed.

(** The error estimate a pass leaves behind, entry by entry. *)
Lemma sgd_body_error (st st' : sgd_state) (b : bool) (d : nat) :
  shaped Mat d st ->
  sgd_body Mat eta lamda epsilon st = Some (st', b) ->
  Error2 st' = f_abs (residual_mean Mat (W st') (H st')).
Proof.
  intros Hsh Hb.
  destruct (sgd_body_spec st d Hsh) as (st1 & b1 & Hb1 & [HW HH] & _).
  rewrite Hb in Hb1. injection Hb1 as <- <-.
  destruct (sgd_body_inv _ _ _ Hb) as (_ & _ & _ & P & D & _ & _ & _ & _ & HP & HD & HE & _).
  rewrite HE. f_equal.
  unfold shape in HW, HH. injection HW as HWr HWc. injection HH as HHr HHc.
  destruct (matmul_Some _ _ _ HP) as (_ & HPr & HPc & HPi).
  assert (Hr : nrows Mat = nrows P) by (rewrite HPr, HWr; reflexivity).
  assert (Hc : ncols Mat = ncols P) by (rewrite HPc, HHc; reflexivity).
  destruct (elementwise_Some Rminus Mat P D Hr Hc HD) as (HDr & HDc & HDi).
  unfold np_mean, residual_mean, np_sum. rewrite HDr, HDc.
  destruct (nrows Mat * ncols Mat =? 0)%nat; [reflexivity|].
  do 2 f_equal. apply sum_upto_ext; intros r _.
  apply sum_upto_ext; intros c _. now rewrite HDi, HPi.
Qed.

End Body.

(** ** The loop *)

Section LoopFacts.

Variable Mat : ndarray.
Variables eta lamda epsilon : R.

Local Abbreviation body := (sgd_body Mat eta lamda epsilon).
Local Abbreviation loop := (sgd_loop Mat eta lamda epsilon).
Local Abbreviation runs := (run Mat eta lamda epsilon).
Local Abbreviation err := (error_estimate Mat eta lamda epsilon).
Local Abbreviation conv := (converged Mat eta lamda epsilon).

Lemma run_shift (k : nat) (st : sgd_state) :
  runs (S k) st = (p ← body st; runs k p.1).
Proof.
  induction k as [|k IH].
  - simpl. destruct (body st) as [[st1 b]|]; reflexivity.
  - change (runs (S (S k)) st) with (st' ← runs (S k) st; fst <$> body st').
    rewrite IH. destruct (body st) as [[st1 b]|]; reflexivity.
Qed.

Lemma run_raised (k : nat) (st : sgd_state) :
  body st = None -> runs (S k) st = None.
Proof. intros Hb. now rewrite run_shift, Hb. Qed.

Lemma run_step (k : nat) (st st1 : sgd_state) (b : bool) :
  body st = Some (st1, b) -> runs (S k) st = runs k st1.
Proof. intros Hb. now rewrite run_shift, Hb. Qed.

Lemma error_estimate_step (k : nat) (st st1 : sgd_state) (b : bool) :
  body st = Some (st1, b) -> err st (S k) = err st1 k.
Proof. intros Hb. unfold error_estimate. now rewrite (run_step k _ _ _ Hb). Qed.

Lemma converged_first (st st1 : sgd_state) (b : bool) :
  body st = Some (st1, b) -> conv st 1 = b.
Proof.
  intros Hb. unfold converged, error_estimate.
  rewrite (run_step 0 _ _ _ Hb). simpl.
  destruct (sgd_body_inv _ _ _ _ _ _ _ Hb)
    as (_ & _ & _ & _ & _ & _ & _ & _ & _ & _ & _ & _ & _ & _ & _ & _ & _ & ->).
  reflexivity.
Qed.

Lemma converged_step (k : nat) (st st1 : sgd_state) (b : bool) :
  body st = Some (st1, b) -> conv st (S (S k)) = conv st1 (S k).
Proof.
  intros Hb. unfold converged.
  replace (S (S k) - 1)%nat with (S k) by lia.
  replace (S k - 1)%nat with k by lia.
  now rewrite !(error_estimate_step _ _ _ _ Hb).
Qed.

(** The test of the [if], read on the two error estimates. *)
Lemma converged_iff (st0 : sgd_state) (t : nat) :
  conv st0 t = true <-> delta_below (err st0 (t - 1)) (err st0 t) epsilon.
Proof.
  unfold converged, delta_below.
  destruct (err st0 (t - 1)) as [y|], (err st0 t) as [x|]; simpl.
  - rewrite Rltb_true, Rabs_minus_sym. split.
    + intros Hlt. exists x, y. auto.
    + intros (x' & y' & [= <-] & [= <-] & Hlt). exact Hlt.
  - split; [discriminate|]. intros (x' & y' & Hx & _). discriminate.
  - split; [discriminate|]. intros (x' & y' & _ & Hy & _). discriminate.
  - split; [discriminate|]. intros (x' & y' & Hx & _). discriminate.
Qed.

(** The loop returns the state after pass [t] exactly when [t] is the
    first pass whose test succeeds. *)
Lemma sgd_loop_Returned (fuel : nat) (st0 r : sgd_state) :
  loop fuel st0 = Returned r <->
  exists t, (1 <= t <= fuel)%nat /\ runs t st0 = Some r /\ conv st0 t = true /\
            forall s, (1 <= s < t)%nat -> conv st0 s = false.
Proof.
  revert st0. induction fuel as [|fuel IH]; intros st0.
  - simpl. split; [discriminate|]. intros (t & Ht & _). lia.
  - simpl. destruct (body st0) as [[st1 b]|] eqn:Hb.
    + pose proof (converged_first _ _ _ Hb) as Hc1. destruct b.
      * split.
        -- intros [= <-]. exists 1%nat. split; [lia|]. split.
           ++ now rewrite (run_step 0 _ _ _ Hb).
           ++ split; [exact Hc1|]. intros s Hs. lia.
        -- intros (t & Ht & Hrun & Hct & Hfirst).
           destruct t as [|[|t]]; [lia| |].
           ++ rewrite (run_step 0 _ _ _ Hb) in Hrun. simpl in Hrun. congruence.
           ++ rewrite (Hfirst 1%nat) in Hc1 by lia. discriminate.
      * rewrite IH. split.
        -- intros (t & Ht & Hrun & Hct & Hfirst).
           exists (S t). split; [lia|]. split; [now rewrite (run_step t _ _ _ Hb)|].
           destruct t as [|t]; [lia|]. split.
           ++ now rewrite (converged_step _ _ _ _ Hb).
           ++ intros s Hs. destruct s as [|[|s]]; [lia|exact Hc1|].
              rewrite (converged_step _ _ _ _ Hb). apply Hfirst. lia.
        -- intros (t & Ht & Hrun & Hct & Hfirst).
           destruct t as [|[|t]]; [lia|congruence|].
           exists (S t). split; [lia|].
           rewrite (run_step _ _ _ _ Hb) in Hrun. split; [exact Hrun|]. split.
           ++ now rewrite <- (converged_step _ _ _ _ Hb).
           ++ intros s Hs. destruct s as [|s]; [lia|].
              rewrite <- (converged_step _ _ _ _ Hb). apply Hfirst. lia.
    + split; [discriminate|]. intros (t & Ht & Hrun & _).
      destruct t as [|t]; [lia|]. rewrite (run_raised t _ Hb) in Hrun. discriminate.
Qed.

Lemma run_shaped (d k : nat) (st0 : sgd_state) :
  shaped Mat d st0 ->
  exists st, runs k st0 = Some st /\ shaped Mat d st /\ i st = (i st0 + k)%nat.
Proof.
  intros Hsh. induction k as [|k (st & Hrun & Hst & Hi)].
  - exists st0. simpl. auto.
  - destruct (sgd_body_spec Mat eta lamda epsilon st d Hst) as (st' & b & Hb & Hsh' & _).
    exists st'. simpl. rewrite Hrun. cbn [mbind option_bind]. rewrite Hb. simpl.
    split; [reflexivity|]. split; [exact Hsh'|].
    destruct (sgd_body_inv _ _ _ _ _ _ _ Hb)
      as (_ & _ & _ & _ & _ & _ & _ & _ & _ & _ & _ & _ & Hi' & _).
    rewrite Hi'. lia.
Qed.

(** With factors of the right shapes the loop never raises. *)
Lemma sgd_loop_not_Raised (d fuel : nat) (st0 : sgd_state) :
  shaped Mat d st0 -> loop fuel st0 <> Raised.
Proof.
  revert st0. induction fuel as [|fuel IH]; intros st0 Hsh; simpl; [discriminate|].
  destruct (sgd_body_spec Mat eta lamda epsilon st0 d Hsh) as (st' & b & Hb & Hsh' & _).
  rewrite Hb. destruct b; [discriminate|]. now apply IH.
Qed.

(** The loop is still running after [fuel] passes exactly when none of
    their tests succeeded. *)
Lemma sgd_loop_OutOfFuel (d fuel : nat) (st0 : sgd_state) :
  shaped Mat d st0 ->
  loop fuel st0 = OutOfFuel <->
  forall s, (1 <= s <= fuel)%nat -> conv st0 s = false.
Proof.
  revert st0. induction fuel as [|fuel IH]; intros st0 Hsh; simpl.
  - split; [intros _ s Hs; lia|reflexivity].
  - destruct (sgd_body_spec Mat eta lamda epsilon st0 d Hsh) as (st' & b & Hb & Hsh' & _).
    rewrite Hb. pose proof (converged_first _ _ _ Hb) as Hc1. destruct b.
    + split; [discriminate|]. intros Hall. rewrite Hall in Hc1 by lia. discriminate.
    + rewrite (IH st' Hsh'). split.
      * intros Hall s Hs. destruct s as [|[|s]]; [lia|exact Hc1|].
        rewrite (converged_step _ _ _ _ Hb). apply Hall. lia.
      * intros Hall s Hs. destruct s as [|s]; [lia|].
        rewrite <- (converged_step _ _ _ _ Hb). apply Hall. lia.
Qed.

End LoopFacts.

Lemma init_state_shaped (Mat : ndarray) (num_topics : nat) (g : rng) :
  shaped Mat num_topics (init_state Mat num_topics g).
Proof. split; reflexivity. Qed.

(** One pass in closed form: what it returns, entry by entry. *)
Lemma sgd_body_closed (Mat : ndarray) (eta lamda epsilon : R) (st : sgd_state) (d : nat) :
  shaped Mat d st ->
  exists st' Loss,
    sgd_body Mat eta lamda epsilon st
      = Some (st', f_lt (f_abs (f_sub (Error2 st) (Error2 st'))) epsilon) /\
    shaped Mat d st' /\
    (forall r c, item (W st') r c =
       item (W st) r c - eta * grad_w_entry Mat (W st) (H st) lamda r c) /\
    (forall r c, item (H st') r c =
       item (H st) r c - eta * grad_h_entry Mat (W st) (H st) lamda r c) /\
    Error2 st' = f_abs (residual_mean Mat (W st') (H st')) /\
    i st' = S (i st) /\
    lossfunc Mat (W st) (H st) lamda = Some Loss /\
    loss_history st' = loss_history st ++ [Loss].
Proof.
  intros Hsh.
  destruct (sgd_body_spec Mat eta lamda epsilon st d Hsh)
    as (st' & b & Hb & Hsh' & HWi & HHi).
  pose proof (sgd_body_error _ _ _ _ _ _ _ _ Hsh Hb) as HE.
  destruct (sgd_body_inv _ _ _ _ _ _ _ Hb)
    as (Loss & _ & _ & _ & _ & HL & _ & _ & _ & _ & _ & _ & Hi & HLh & _ & _ & _ & ->).
  exists st', Loss. repeat split; try assumption; apply Hsh'.
Qed.

(** The pass on 1-by-1 arrays, in scalars. *)
Lemma sgd_body_1x1 (Mat : ndarray) (eta lamda epsilon : R) (st : sgd_state) :
  shape Mat = (1, 1)%nat -> shaped Mat 1 st ->
  exists st',
    sgd_body Mat eta lamda epsilon st
      = Some (st', f_lt (f_abs (f_sub (Error2 st) (Error2 st'))) epsilon) /\
    shaped Mat 1 st' /\
    item (W st') 0 0 =
      item (W st) 0 0
      - eta * ((item (W st) 0 0 * item (H st) 0 0 - item Mat 0 0) * item (H st) 0 0
               + lamda * item (W st) 0 0) /\
    item (H st') 0 0 =
      item (H st) 0 0
      - eta * (item (W st) 0 0 * (item (W st) 0 0 * item (H st) 0 0 - item Mat 0 0)
               + lamda * item (H st) 0 0) /\
    Error2 st' = Fin (Rabs (item Mat 0 0 - item (W st') 0 0 * item (H st') 0 0)) /\
    i st' = S (i st) /\
    (exists Loss, lossfunc Mat (W st) (H st) lamda = Some Loss /\
                  loss_history st' = loss_history st ++ [Loss]).
Proof.
  intros HM Hsh.
  destruct (sgd_body_closed Mat eta lamda epsilon st 1 Hsh)
    as (st' & Loss & Hb & Hsh' & HWi & HHi & HE & Hi & HL & HLh).
  exists st'. split; [exact Hb|]. split; [exact Hsh'|].
  unfold shape in HM. injection HM as HMr HMc.
  destruct Hsh as [HW HH]. destruct Hsh' as [HW' HH'].
  unfold shape in HW, HH, HW', HH'.
  injection HW as HWr HWc. injection HH as HHr HHc.
  injection HW' as HW'r HW'c. injection HH' as HH'r HH'c.
  repeat split.
  - rewrite HWi. unfold grad_w_entry, prod_entry. rewrite HMc, HWc. simpl. ring.
  - rewrite HHi. unfold grad_h_entry, prod_entry. rewrite HMr, HWc. simpl. ring.
  - rewrite HE. unfold residual_mean, prod_entry. rewrite HMr, HMc, HW'c. simpl.
    do 2 f_equal. field.
  - exact Hi.
  - eauto.
Qed.

(** ** The loss *)

Lemma residual_sumsq_sub (V W H P D : ndarray) (d : nat) :
  shape W = (nrows V, d) -> shape H = (d, ncols V) ->
  matmul W H = Some P -> np_sub V P = Some D ->
  sumsq D = residual_sumsq V W H.
Proof.
  unfold shape. intros [= HWr HWc] [= HHr HHc] HP HD.
  destruct (matmul_Some _ _ _ HP) as (_ & HPr & HPc & HPi).
  assert (Hr : nrows V = nrows P) by (rewrite HPr, HWr; reflexivity).
  assert (Hc : ncols V = ncols P) by (rewrite HPc, HHc; reflexivity).
  destruct (elementwise_Some Rminus V P D Hr Hc HD) as (HDr & HDc & HDi).
  unfold sumsq, residual_sumsq. rewrite HDr, HDc.
  apply sum_upto_ext; intros r _. apply sum_upto_ext; intros c _.
  now rewrite HDi, HPi.
Qed.

Lemma conformable_sub (V W H : ndarray) (d : nat) :
  shape W = (nrows V, d) -> shape H = (d, ncols V) ->
  exists P D, matmul W H = Some P /\ np_sub V P = Some D.
Proof.
  unfold shape. intros [= HWr HWc] [= HHr HHc].
  destruct (matmul_total W H) as [P HP]; [congruence|].
  destruct (matmul_Some _ _ _ HP) as (_ & HPr & HPc & _).
  assert (Hr : nrows V = nrows P) by (rewrite HPr, HWr; reflexivity).
  assert (Hc : ncols V = ncols P) by (rewrite HPc, HHc; reflexivity).
  destruct (elementwise_total Rminus V P Hr Hc) as [D HD]. eauto.
Qed.

Lemma lossfunc_closed (V W H : ndarray) (lamda : R) (d : nat) :
  shape W = (nrows V, d) -> shape H = (d, ncols V) ->
  lossfunc V W H lamda =
    Some (1 / 2 * residual_sumsq V W H
          + lamda / 2 * (sumsq W + residual_sumsq V W H)).
Proof.
  intros HW HH. destruct (conformable_sub V W H d HW HH) as (P & D & HP & HD).
  rewrite lossfunc_unfold, HP. cbn [mbind option_bind]. rewrite HD.
  cbn [mbind option_bind]. now rewrite (residual_sumsq_sub V W H P D d).
Qed.

Lemma objective_F_closed (V W H : ndarray) (lamda : R) (d : nat) :
  shape W = (nrows V, d) -> shape H = (d, ncols V) ->
  objective_F V W H lamda =
    Some (1 / 2 * residual_sumsq V W H + lamda / 2 * (sumsq W + sumsq H)).
Proof.
  intros HW HH. destruct (conformable_sub V W H d HW HH) as (P & D & HP & HD).
  unfold objective_F. rewrite HP. cbn [mbind option_bind]. rewrite HD.
  cbn [mbind option_bind]. now rewrite (residual_sumsq_sub V W H P D d).
Qed.

(** [lossfunc] at V = [[1]], W = [[1]], H = [[h]], lamda = 1. *)
Lemma loss_in_h_example (h : R) :
  loss_in_h (full 1 1 1) (full 1 1 1) 1 h = (1 - h) * (1 - h) + 1 / 2.
Proof.
  unfold loss_in_h.
  rewrite (lossfunc_closed _ _ _ _ 1%nat) by reflexivity.
  unfold residual_sumsq, sumsq, prod_entry. simpl. lra.
Qed.

(** C2: at V = [[1]], W = [[1]], H = [[2]], lamda = 1 the loss that [sgd]
    records, [lossfunc], is 3/2, while the objective
    F(W,H) = 1/2 |V - WH|^2 + lamda/2 (|W|^2 + |H|^2) is 3: the recorded
    loss is not the objective. *)
Theorem lossfunc_is_not_objective_F :
  lossfunc (full 1 1 1) (full 1 1 1) (full 1 1 2) 1 = Some (3 / 2) /\
  objective_F (full 1 1 1) (full 1 1 1) (full 1 1 2) 1 = Some 3 /\
  lossfunc (full 1 1 1) (full 1 1 1) (full 1 1 2) 1
    <> objective_F (full 1 1 1) (full 1 1 1) (full 1 1 2) 1.
Proof.
  assert (HL : lossfunc (full 1 1 1) (full 1 1 1) (full 1 1 2) 1 = Some (3 / 2)).
  { rewrite (lossfunc_closed _ _ _ _ 1%nat) by reflexivity.
    unfold residual_sumsq, sumsq, prod_entry. simpl. f_equal. lra. }
  assert (HF : objective_F (full 1 1 1) (full 1 1 1) (full 1 1 2) 1 = Some 3).
  { rewrite (objective_F_closed _ _ _ _ 1%nat) by reflexivity.
    unfold residual_sumsq, sumsq, prod_entry. simpl. f_equal. lra. }
  rewrite HL, HF. repeat split. intros [= Habs]. lra.
Qed.

(** [objective_F] at V = [[1]], W = [[1]], H = [[h]], lamda = 1. *)
Lemma objective_in_h_example (h : R) :
  objective_in_h (full 1 1 1) (full 1 1 1) 1 h
    = 1 / 2 * ((1 - h) * (1 - h)) + 1 / 2 * (1 + h * h).
Proof.
  unfold objective_in_h.
  rewrite (objective_F_closed _ _ _ _ 1%nat) by reflexivity.
  unfold residual_sumsq, sumsq, prod_entry. simpl. lra.
Qed.

(** Where both are defined, [lossfunc] exceeds the objective by
    lamda/2 (|V - WH|^2 - |H|^2). *)
Lemma lossfunc_minus_objective_F (V W H : ndarray) (lamda : R) (d : nat) :
  shape W = (nrows V, d) -> shape H = (d, ncols V) ->
  exists l f,
    lossfunc V W H lamda = Some l /\ objective_F V W H lamda = Some f /\
    l - f = lamda / 2 * (residual_sumsq V W H - sumsq H).
Proof.
  intros HW HH. eexists _, _.
  split; [exact (lossfunc_closed V W H lamda d HW HH)|].
  split; [exact (objective_F_closed V W H lamda d HW HH)|]. lra.
Qed.

(** C3: whatever the shapes, lossfunc(V,W,H,lamda) is
    1/2 |D|^2 + lamda/2 (|W|^2 + |D|^2) for D = V - WH (and raises where
    the product or the difference does); for conformable shapes this is
    1/2 |V - WH|^2 + lamda/2 (|W|^2 + |V - WH|^2) entry by entry: the lamda
    term holds the squared residual where the objective has |H|^2.  The
    value is therefore not the function whose gradients [grads] returns:
    at V = [[1]], W = [[1]], H = [[2]], lamda = 1 the derivative of
    [lossfunc] in the entry of H is 2, while [grads] returns 3 for it,
    the derivative of the objective. *)
Theorem lossfunc_lambda_term_reuses_residual :
  (forall (V W H : ndarray) (lamda : R),
      lossfunc V W H lamda =
        (P ← matmul W H;
         D ← np_sub V P;
         Some (1 / 2 * sumsq D + lamda / 2 * (sumsq W + sumsq D)))) /\
  (forall (V W H : ndarray) (lamda : R) (d : nat),
      shape W = (nrows V, d) -> shape H = (d, ncols V) ->
      lossfunc V W H lamda =
        Some (1 / 2 * residual_sumsq V W H
              + lamda / 2 * (sumsq W + residual_sumsq V W H))) /\
  (exists gw gh,
      grads (full 1 1 1) (full 1 1 1) (full 1 1 2) 1 = Some (gw, gh) /\
      item gh 0 0 = 3 /\
      derivable_pt_lim (objective_in_h (full 1 1 1) (full 1 1 1) 1) 2 (item gh 0 0) /\
      derivable_pt_lim (loss_in_h (full 1 1 1) (full 1 1 1) 1) 2 2 /\
      ~ derivable_pt_lim (loss_in_h (full 1 1 1) (full 1 1 1) 1) 2 (item gh 0 0)).
Proof.
  split; [exact lossfunc_unfold|]. split; [exact lossfunc_closed|].
  destruct (grads_spec (full 1 1 1) 1 (full 1 1 1) (full 1 1 2) 1%nat)
    as (gw & gh & Hg & _ & _ & _ & Hgh); [reflexivity..|].
  assert (H3 : item gh 0 0 = 3).
  { rewrite Hgh. unfold grad_h_entry, prod_entry. simpl. lra. }
  assert (Hd : derivable_pt_lim (loss_in_h (full 1 1 1) (full 1 1 1) 1) 2 2).
  { intros eps Heps. exists (mkposreal eps Heps). intros t Ht Hlt. simpl in Hlt.
    rewrite !loss_in_h_example.
    replace (((1 - (2 + t)) * (1 - (2 + t)) + 1 / 2 - ((1 - 2) * (1 - 2) + 1 / 2)) / t - 2)
      with t by (field; exact Ht).
    exact Hlt. }
  assert (HdF : derivable_pt_lim (objective_in_h (full 1 1 1) (full 1 1 1) 1) 2 3).
  { intros eps Heps. exists (mkposreal eps Heps). intros t Ht Hlt. simpl in Hlt.
    rewrite !objective_in_h_example.
    replace ((1 / 2 * ((1 - (2 + t)) * (1 - (2 + t))) + 1 / 2 * (1 + (2 + t) * (2 + t))
              - (1 / 2 * ((1 - 2) * (1 - 2)) + 1 / 2 * (1 + 2 * 2))) / t - 3)
      with t by (field; exact Ht).
    exact Hlt. }
  exists gw, gh. rewrite H3. repeat split; try assumption.
  intros Hd'. pose proof (uniqueness_limite _ _ _ _ Hd Hd'). lra.
Qed.

(** The hypotheses of C3 hold at V = [[1]], W = [[1]], H = [[2]]. *)
Lemma lossfunc_lambda_term_reuses_residual_witness :
  lossfunc (full 1 1 1) (full 1 1 1) (full 1 1 2) 1 =
    Some (1 / 2 * residual_sumsq (full 1 1 1) (full 1 1 1) (full 1 1 2)
          + 1 / 2 * (sumsq (full 1 1 1)
                     + residual_sumsq (full 1 1 1) (full 1 1 1) (full 1 1 2))).
Proof.
  apply (proj1 (proj2 lossfunc_lambda_term_reuses_residual)
           (full 1 1 1) (full 1 1 1) (full 1 1 2) 1 1%nat); reflexivity.
Defined.

(** ** The update *)

(** [np.abs] makes the initial factors nonnegative. *)
Lemma init_state_nonneg (Mat : ndarray) (num_topics : nat) (g : rng) :
  nonneg (W (init_state Mat num_topics g)) /\ nonneg (H (init_state Mat num_topics g)).
Proof. split; intros r c _ _; simpl; apply Rabs_pos. Qed.

(** With every variate equal to 200 the initial factors are filled with 2. *)
Lemma init_state_200 (Mat : ndarray) (num_topics : nat) (r c : nat) :
  item (W (init_state Mat num_topics (fun _ => 200))) r c = 2 /\
  item (H (init_state Mat num_topics (fun _ => 200))) r c = 2.
Proof.
  simpl. replace (0 + 0.01 * 200) with 2 by lra.
  split; apply Rabs_pos_eq; lra.
Qed.

(** C4: a pass replaces W by W - eta ((WH - V) H^T + lamda W) and H by
    H - eta (W^T (WH - V) + lamda H), entry by entry, where W and H on the
    right-hand sides are both the factors the pass started with. *)
Theorem update_is_simultaneous_full_batch
    (V : ndarray) (eta lamda epsilon : R) (d : nat) (st st' : sgd_state) (b : bool) :
  shaped V d st ->
  sgd_body V eta lamda epsilon st = Some (st', b) ->
  (forall r c, item (W st') r c =
     item (W st) r c
     - eta * (sum_upto (ncols V) (fun k =>
                (sum_upto (ncols (W st)) (fun l => item (W st) r l * item (H st) l k)
                 - item V r k) * item (H st) c k)
              + lamda * item (W st) r c)) /\
  (forall r c, item (H st') r c =
     item (H st) r c
     - eta * (sum_upto (nrows V) (fun k =>
                item (W st) k r *
                (sum_upto (ncols (W st)) (fun l => item (W st) k l * item (H st) l c)
                 - item V k c))
              + lamda * item (H st) r c)) /\
  shaped V d st'.
Proof.
  intros Hsh Hb.
  destruct (sgd_body_spec V eta lamda epsilon st d Hsh) as (st1 & b1 & Hb1 & Hsh1 & HWi & HHi).
  rewrite Hb in Hb1. injection Hb1 as <- <-.
  split; [exact HWi|]. split; [exact HHi|exact Hsh1].
Qed.

(** C4 at V = [[1]] with both factors [[2]], eta = 1, lamda = 0: both
    factors become [[-4]]; the gradient in H taken at the new W would have
    given -34. *)
Lemma update_is_simultaneous_full_batch_witness :
  exists st' b,
    sgd_body (full 1 1 1) 1 0 1 (state_of (full 1 1 2) (full 1 1 2)) = Some (st', b) /\
    item (W st') 0 0 = -4 /\ item (H st') 0 0 = -4 /\
    2 - 1 * grad_h_entry (full 1 1 1) (W st') (full 1 1 2) 0 0 0 = -34.
Proof.
  eexists _, _. split; [reflexivity|].
  destruct (update_is_simultaneous_full_batch (full 1 1 1) 1 0 1 1
              (state_of (full 1 1 2) (full 1 1 2)) _ _
              ltac:(split; reflexivity) eq_refl) as (HW & HH & _).
  split; [rewrite HW; simpl; lra|]. split; [rewrite HH; simpl; lra|].
  unfold grad_h_entry, prod_entry. simpl. lra.
Defined.

(** C7: from nonnegative V = [[1]] and the nonnegative initial factors
    [[2]] that [sgd] draws when the variates are 200, with eta = 1 > 0 and
    lamda = 0, the first pass yields a W and an H whose entry is -4; the
    state carries them on unchanged. *)
Theorem update_does_not_preserve_nonnegativity :
  exists (V : ndarray) (num_topics : nat) (g : rng) (eta lamda epsilon : R)
         (st' : sgd_state) (b : bool),
    nonneg V /\
    nonneg (W (init_state V num_topics g)) /\
    nonneg (H (init_state V num_topics g)) /\
    0 < eta /\ 0 <= lamda /\
    sgd_body V eta lamda epsilon (init_state V num_topics g) = Some (st', b) /\
    (exists r c, (r < nrows (W st'))%nat /\ (c < ncols (W st'))%nat /\ item (W st') r c < 0) /\
    (exists r c, (r < nrows (H st'))%nat /\ (c < ncols (H st'))%nat /\ item (H st') r c < 0).
Proof.
  exists (full 1 1 1), 1%nat, (fun _ => 200), 1, 0, 1.
  destruct (sgd_body_1x1 (full 1 1 1) 1 0 1 (init_state (full 1 1 1) 1 (fun _ => 200)))
    as (st' & Hb & [HW' HH'] & HWi & HHi & _); [reflexivity|apply init_state_shaped|].
  destruct (init_state_200 (full 1 1 1) 1 0 0) as [HW0 HH0].
  rewrite HW0, HH0 in HWi, HHi. simpl in HWi, HHi.
  unfold shape in HW', HH'. injection HW' as HWr HWc. injection HH' as HHr HHc.
  eexists st', _.
  split; [intros r c _ _; simpl; lra|].
  split; [apply init_state_nonneg|]. split; [apply init_state_nonneg|].
  split; [lra|]. split; [lra|]. split; [exact Hb|]. split.
  - exists 0%nat, 0%nat. rewrite HWr, HWc, HWi. simpl. split; [lia|]. split; [lia|lra].
  - exists 0%nat, 0%nat. rewrite HHr, HHc, HHi. simpl. split; [lia|]. split; [lia|lra].
Qed.

(** ** What a pass records *)

(** C6 (as stated) fails at V = [[1]], factors [[2]], eta = 1, lamda = 0:
    the pass records 9/2, the loss at the factors it started with, and the
    loss at the factors it produces, [[-4]], is 225/2. *)
Lemma recorded_loss_is_not_post_update :
  ~ records_post_update_loss (full 1 1 1) 1 0 1 (state_of (full 1 1 2) (full 1 1 2)).
Proof.
  intros Hclaim.
  destruct (sgd_body_1x1 (full 1 1 1) 1 0 1 (state_of (full 1 1 2) (full 1 1 2)))
    as (st' & Hb & [HW' HH'] & HWi & HHi & _ & _ & Loss & HL & HLh);
    [reflexivity|split; reflexivity|].
  destruct (Hclaim _ _ Hb) as (l & Hl & Hlh).
  rewrite HLh in Hlh. apply app_inj_tail in Hlh as [_ ->].
  rewrite (lossfunc_closed _ _ _ _ 1%nat) in HL by reflexivity.
  rewrite (lossfunc_closed _ _ _ _ 1%nat) in Hl by assumption.
  unfold shape in HW', HH'. injection HW' as HWr HWc. injection HH' as HHr HHc.
  unfold residual_sumsq, sumsq, prod_entry in HL, Hl.
  rewrite HWr, HWc in Hl. simpl in HL, Hl, HWi, HHi.
  rewrite HWi, HHi in Hl. rewrite <- HL in Hl. injection Hl as Hl. lra.
Qed.

(** C6 (amended): the loss a pass appends to the history is [lossfunc] at
    the factors the pass starts with, before they are updated; the pass
    appends exactly one value. *)
Theorem recorded_loss_is_pre_update
    (V : ndarray) (eta lamda epsilon : R) (st st' : sgd_state) (b : bool) :
  sgd_body V eta lamda epsilon st = Some (st', b) ->
  exists l, lossfunc V (W st) (H st) lamda = Some l /\
            loss_history st' = loss_history st ++ [l].
Proof.
  intros Hb.
  destruct (sgd_body_inv _ _ _ _ _ _ _ Hb)
    as (Loss & _ & _ & _ & _ & HL & _ & _ & _ & _ & _ & _ & _ & HLh & _).
  eauto.
Qed.

(** C6 (amended) at V = [[1]], factors [[2]], eta = 1, lamda = 0: the pass
    records 9/2. *)
Lemma recorded_loss_is_pre_update_witness :
  exists st' b,
    sgd_body (full 1 1 1) 1 0 1 (state_of (full 1 1 2) (full 1 1 2)) = Some (st', b) /\
    exists l, lossfunc (full 1 1 1) (full 1 1 2) (full 1 1 2) 0 = Some l /\
              loss_history st' = [l].
Proof.
  eexists _, _. split; [reflexivity|].
  apply (recorded_loss_is_pre_update (full 1 1 1) 1 0 1
           (state_of (full 1 1 2) (full 1 1 2)) _ _ eq_refl).
Defined.

(** C1 (as stated) fails at V = [[1]], factors [[2]], eta = 1, lamda = 0:
    after the pass the residual is [[-15]], its mean is -15, and the error
    estimate is 15. *)
Lemma error_estimate_is_not_signed_mean :
  ~ estimate_is_signed_mean (full 1 1 1) 1 0 1 (state_of (full 1 1 2) (full 1 1 2)).
Proof.
  intros Hclaim.
  destruct (sgd_body_1x1 (full 1 1 1) 1 0 1 (state_of (full 1 1 2) (full 1 1 2)))
    as (st' & Hb & [HW' HH'] & HWi & HHi & HE & _); [reflexivity|split; reflexivity|].
  rewrite (Hclaim _ _ Hb) in HE.
  unfold shape in HW', HH'. injection HW' as HWr HWc. injection HH' as HHr HHc.
  simpl in HWi, HHi.
  assert (Hw : item (W st') 0 0 = -4) by lra.
  assert (Hh : item (H st') 0 0 = -4) by lra.
  unfold residual_mean, prod_entry in HE. rewrite HWc in HE. simpl in HE.
  rewrite Hw, Hh in HE. injection HE as HE.
  replace (1 - -4 * -4) with (-15) in HE by lra.
  rewrite Rabs_left in HE by lra. lra.
Qed.

(** C1 (amended): the error estimate a pass computes, after its update,
    is the absolute value of the mean of the residual V - WH at the updated
    factors.  The mean is taken over the signed entries, before the
    absolute value, so residuals of opposite sign cancel: at V = [[0, 2]],
    W = [[1]], H = [[1, 1]], eta = 1/2, lamda = 0 the residual after the
    pass is [[-1/2, 1/2]] and the estimate is 0. *)
Theorem error_estimate_is_abs_of_mean_residual :
  (forall (V : ndarray) (eta lamda epsilon : R) (d : nat) (st st' : sgd_state) (b : bool),
      shaped V d st ->
      sgd_body V eta lamda epsilon st = Some (st', b) ->
      Error2 st' = f_abs (residual_mean V (W st') (H st'))) /\
  (exists st' b,
      sgd_body (row2 0 2) (1 / 2) 0 1 (state_of (full 1 1 1) (full 1 2 1)) = Some (st', b) /\
      item (row2 0 2) 0 0 - prod_entry (W st') (H st') 0 0 = - (1 / 2) /\
      item (row2 0 2) 0 1 - prod_entry (W st') (H st') 0 1 = 1 / 2 /\
      Error2 st' = Fin 0).
Proof.
  split.
  - intros V eta lamda epsilon d st st' b Hsh Hb.
    exact (sgd_body_error V eta lamda epsilon st st' b d Hsh Hb).
  - destruct (sgd_body_closed (row2 0 2) (1 / 2) 0 1 (state_of (full 1 1 1) (full 1 2 1)) 1)
      as (st' & _ & Hb & [HW' HH'] & HWi & HHi & HE & _); [split; reflexivity|].
    unfold shape in HW', HH'. injection HW' as HWr HWc. injection HH' as HHr HHc.
    assert (Hw : item (W st') 0 0 = 1).
    { rewrite HWi. unfold grad_w_entry, prod_entry. simpl. lra. }
    assert (Hh0 : item (H st') 0 0 = 1 / 2).
    { rewrite HHi. unfold grad_h_entry, prod_entry. simpl. lra. }
    assert (Hh1 : item (H st') 0 1 = 3 / 2).
    { rewrite HHi. unfold grad_h_entry, prod_entry. simpl. lra. }
    eexists st', _. split; [exact Hb|].
    unfold prod_entry. rewrite HWc. simpl sum_upto. rewrite Hw, Hh0, Hh1.
    split; [simpl; lra|]. split; [simpl; lra|].
    rewrite HE. unfold residual_mean, prod_entry. rewrite HWc. simpl.
    rewrite Hw, Hh0, Hh1. f_equal.
    match goal with |- Rabs ?x = 0 => replace x with 0 by lra end.
    apply Rabs_R0.
Qed.

(** C1 (amended) at V = [[1]], factors [[2]], eta = 1, lamda = 0. *)
Lemma error_estimate_is_abs_of_mean_residual_witness :
  exists st' b,
    sgd_body (full 1 1 1) 1 0 1 (state_of (full 1 1 2) (full 1 1 2)) = Some (st', b) /\
    Error2 st' = f_abs (residual_mean (full 1 1 1) (W st') (H st')).
Proof.
  eexists _, _. split; [reflexivity|].
  eapply (proj1 error_estimate_is_abs_of_mean_residual (full 1 1 1) 1 0 1 1%nat
            (state_of (full 1 1 2) (full 1 1 2))).
  - split; reflexivity.
  - reflexivity.
Defined.

(** ** Leaving the loop *)

Lemma sgd_Returned (fuel : nat) (Mat : ndarray) (num_topics : nat)
    (eta lamda epsilon : R) (g : rng) (res : sgd_result) :
  sgd fuel Mat num_topics eta lamda epsilon g = Returned res <->
  exists st, sgd_loop Mat eta lamda epsilon fuel (init_state Mat num_topics g) = Returned st /\
             res = result_of st.
Proof.
  unfold sgd.
  destruct (sgd_loop Mat eta lamda epsilon fuel (init_state Mat num_topics g)) as [st| |].
  - split.
    + intros [= <-]. eauto.
    + intros (st1 & [= <-] & ->). reflexivity.
  - split; [discriminate|]. intros (st1 & Hst & _). discriminate.
  - split; [discriminate|]. intros (st1 & Hst & _). discriminate.
Qed.

Lemma sgd_OutOfFuel (fuel : nat) (Mat : ndarray) (num_topics : nat)
    (eta lamda epsilon : R) (g : rng) :
  sgd fuel Mat num_topics eta lamda epsilon g = OutOfFuel <->
  sgd_loop Mat eta lamda epsilon fuel (init_state Mat num_topics g) = OutOfFuel.
Proof.
  unfold sgd.
  destruct (sgd_loop Mat eta lamda epsilon fuel (init_state Mat num_topics g));
    split; intros; congruence.
Qed.

(** From a zero previous estimate the test of a pass compares the new
    estimate itself with [epsilon]. *)
Lemma first_test (Mat : ndarray) (eta lamda epsilon : R) (d : nat) (st0 st1 : sgd_state)
    (b : bool) :
  shaped Mat d st0 -> Error2 st0 = Fin 0 ->
  sgd_body Mat eta lamda epsilon st0 = Some (st1, b) ->
  b = true <-> exists x, residual_mean Mat (W st1) (H st1) = Fin x /\ Rabs x < epsilon.
Proof.
  intros Hsh HE0 Hb.
  pose proof (sgd_body_error _ _ _ _ _ _ _ _ Hsh Hb) as HE.
  destruct (sgd_body_inv _ _ _ _ _ _ _ Hb)
    as (_ & _ & _ & _ & _ & _ & _ & _ & _ & _ & _ & _ & _ & _ & _ & _ & _ & ->).
  rewrite HE0, HE. destruct (residual_mean Mat (W st1) (H st1)) as [x|]; simpl.
  - rewrite Rltb_true. replace (Rabs (0 - Rabs x)) with (Rabs x).
    + split; [eauto|]. intros (x' & [= <-] & Hlt). exact Hlt.
    + unfold Rminus. rewrite Rplus_0_l, Rabs_Ropp, Rabs_Rabsolu. reflexivity.
  - split; [discriminate|]. intros (x & Hx & _). discriminate.
Qed.

(** A blown-up state stays blown up and its test fails, whenever
    eta = 1, lamda is the default 0.5 and epsilon is at most 45. *)
Lemma blown_up_step (epsilon : R) (st : sgd_state) :
  epsilon <= 45 -> blown_up st ->
  exists st', sgd_body (full 1 1 0) 1 lamda_default epsilon st = Some (st', false) /\
              blown_up st'.
Proof.
  intros Heps (Hsh & Hhw & Hq & e & HE & He).
  destruct (sgd_body_1x1 (full 1 1 0) 1 lamda_default epsilon st eq_refl Hsh)
    as (st' & Hb & Hsh' & HWi & HHi & HE' & _).
  rewrite Hhw in HWi, HHi. unfold lamda_default in HWi, HHi. simpl in HWi, HHi.
  set (w := item (W st) 0 0) in *.
  assert (Hw' : item (W st') 0 0 = w * (0.5 - w * w)) by (rewrite HWi; lra).
  assert (Hh' : item (H st') 0 0 = w * (0.5 - w * w)) by (rewrite HHi; lra).
  set (q := w * w) in *.
  assert (Hsq : item (W st') 0 0 * item (W st') 0 0 = q * ((q - 0.5) * (q - 0.5)))
    by (rewrite Hw'; unfold q; lra).
  assert (Hbig : 12.25 <= (q - 0.5) * (q - 0.5)) by nra.
  assert (Hgrow : 12.25 * q <= q * ((q - 0.5) * (q - 0.5))) by nra.
  assert (HE'' : Error2 st' = Fin (item (W st') 0 0 * item (W st') 0 0)).
  { rewrite HE'. f_equal. rewrite Hh'. rewrite <- Hw'. simpl.
    replace (0 - item (W st') 0 0 * item (W st') 0 0)
      with (- (item (W st') 0 0 * item (W st') 0 0)) by ring.
    rewrite Rabs_Ropp. apply Rabs_pos_eq. nra. }
  exists st'. split.
  - rewrite Hb. do 2 f_equal. rewrite HE, HE''. simpl. apply Rltb_false.
    rewrite Hsq. rewrite Rabs_left by lra. lra.
  - split; [exact Hsh'|]. split; [congruence|]. split; [lra|].
    exists (item (W st') 0 0 * item (W st') 0 0). split; [exact HE''|]. lra.
Qed.

Lemma blown_up_loops (epsilon : R) (fuel : nat) (st : sgd_state) :
  epsilon <= 45 -> blown_up st ->
  sgd_loop (full 1 1 0) 1 lamda_default epsilon fuel st = OutOfFuel.
Proof.
  intros Heps. revert st. induction fuel as [|fuel IH]; intros st Hst; simpl.
  - reflexivity.
  - destruct (blown_up_step epsilon st Heps Hst) as (st' & -> & Hst'). now apply IH.
Qed.

Lemma init_state_blown_up : blown_up (init_state (full 1 1 0) 1 (fun _ => 200)).
Proof.
  destruct (init_state_200 (full 1 1 0) 1 0 0) as [HW0 HH0].
  split; [apply init_state_shaped|]. rewrite HW0, HH0.
  split; [reflexivity|]. split; [lra|]. exists 0. split; [reflexivity|lra].
Qed.

(** With every variate equal to 100 the initial factors are filled with 1. *)
Lemma init_state_100 (Mat : ndarray) (num_topics : nat) (r c : nat) :
  item (W (init_state Mat num_topics (fun _ => 100))) r c = 1 /\
  item (H (init_state Mat num_topics (fun _ => 100))) r c = 1.
Proof.
  simpl. replace (0 + 0.01 * 100) with 1 by lra.
  split; apply Rabs_pos_eq; lra.
Qed.

(** The pass from W = [[1]], H = [[1, 1]] on V = [[0, 2]] with eta = 1/2
    and lamda = 0: W stays [[1]], H becomes [[1/2, 3/2]], the residual is
    [[-1/2, 1/2]] and the error estimate is 0. *)
Lemma cancelling_pass (epsilon : R) (st0 : sgd_state) :
  shaped (row2 0 2) 1 st0 ->
  item (W st0) 0 0 = 1 -> item (H st0) 0 0 = 1 -> item (H st0) 0 1 = 1 ->
  exists st',
    sgd_body (row2 0 2) (1 / 2) 0 epsilon st0
      = Some (st', f_lt (f_abs (f_sub (Error2 st0) (Error2 st'))) epsilon) /\
    shaped (row2 0 2) 1 st' /\
    item (row2 0 2) 0 0 - prod_entry (W st') (H st') 0 0 = - (1 / 2) /\
    item (row2 0 2) 0 1 - prod_entry (W st') (H st') 0 1 = 1 / 2 /\
    Error2 st' = Fin 0 /\
    i st' = S (i st0).
Proof.
  intros Hsh Hw0 Hh0 Hh1.
  destruct (sgd_body_closed (row2 0 2) (1 / 2) 0 epsilon st0 1 Hsh)
    as (st' & _ & Hb & Hsh' & HWi & HHi & HE & Hi & _).
  assert (HW0c : ncols (W st0) = 1%nat) by (destruct Hsh as [[= _ Hc] _]; exact Hc).
  assert (HWc : ncols (W st') = 1%nat) by (destruct Hsh' as [[= _ Hc] _]; exact Hc).
  assert (Hw : item (W st') 0 0 = 1).
  { rewrite HWi. unfold grad_w_entry, prod_entry. rewrite HW0c. simpl.
    rewrite Hw0, Hh0, Hh1. lra. }
  assert (Hh0' : item (H st') 0 0 = 1 / 2).
  { rewrite HHi. unfold grad_h_entry, prod_entry. rewrite HW0c. simpl.
    rewrite Hw0, Hh0. lra. }
  assert (Hh1' : item (H st') 0 1 = 3 / 2).
  { rewrite HHi. unfold grad_h_entry, prod_entry. rewrite HW0c. simpl.
    rewrite Hw0, Hh1. lra. }
  exists st'. split; [exact Hb|]. split; [exact Hsh'|].
  unfold prod_entry. rewrite HWc. simpl sum_upto. rewrite Hw, Hh0', Hh1'.
  split; [simpl; lra|]. split; [simpl; lra|]. split; [|exact Hi].
  rewrite HE. unfold residual_mean, prod_entry. rewrite HWc. simpl.
  rewrite Hw, Hh0', Hh1'. f_equal.
  match goal with |- Rabs ?x = 0 => replace x with 0 by lra end.
  apply Rabs_R0.
Qed.

(** [sgd] on V = [[0, 2]] with one topic, eta = 1/2, lamda = 0, any
    positive epsilon and every variate 100 returns after its first pass,
    with the residual [[-1/2, 1/2]]. *)
Lemma cancelling_run (epsilon : R) (fuel : nat) :
  0 < epsilon ->
  exists st',
    sgd (S fuel) (row2 0 2) 1 (1 / 2) 0 epsilon (fun _ => 100) = Returned (result_of st') /\
    shaped (row2 0 2) 1 st' /\
    i st' = 1%nat /\
    item (row2 0 2) 0 0 - prod_entry (W st') (H st') 0 0 = - (1 / 2) /\
    item (row2 0 2) 0 1 - prod_entry (W st') (H st') 0 1 = 1 / 2.
Proof.
  intros Heps.
  destruct (cancelling_pass epsilon (init_state (row2 0 2) 1 (fun _ => 100)))
    as (st' & Hb & Hsh' & Hr0 & Hr1 & HE & Hi);
    [apply init_state_shaped|apply init_state_100..|].
  exists st'. split; [|auto].
  unfold sgd. cbn [sgd_loop]. rewrite Hb, HE. cbn [Error2 init_state f_sub f_abs f_lt shape random_normal].
  replace (Rltb (Rabs (0 - 0)) epsilon) with true; [reflexivity|].
  symmetry. apply Rltb_true. rewrite Rminus_diag, Rabs_R0. exact Heps.
Qed.

(** C10: [Error2] is 0 when the loop is entered; the first pass is always
    executed, so every returned iteration count is at least 1; and when the
    absolute mean residual after the first update is below epsilon, [sgd]
    returns after that one pass.  On V = [[0, 2]] with one topic,
    eta = 1/2, lamda = 0, the default epsilon and variates 100 it does so,
    having compared its one computed estimate with the initial 0 only. *)
Theorem first_pass_can_end_the_loop :
  (forall (Mat : ndarray) (num_topics : nat) (eta lamda epsilon : R) (g : rng),
      Error2 (init_state Mat num_topics g) = Fin 0 /\
      (forall fuel res,
          sgd fuel Mat num_topics eta lamda epsilon g = Returned res ->
          (1 <= result_i res)%nat) /\
      exists st1 b,
        sgd_body Mat eta lamda epsilon (init_state Mat num_topics g) = Some (st1, b) /\
        i st1 = 1%nat /\
        forall x,
          residual_mean Mat (W st1) (H st1) = Fin x -> Rabs x < epsilon ->
          forall fuel,
            sgd (S fuel) Mat num_topics eta lamda epsilon g = Returned (result_of st1)) /\
  (exists res,
      sgd 1 (row2 0 2) 1 (1 / 2) 0 epsilon_default (fun _ => 100) = Returned res /\
      result_i res = 1%nat).
Proof.
  split.
  - intros Mat num_topics eta lamda epsilon g.
    pose proof (init_state_shaped Mat num_topics g) as Hsh.
    split; [reflexivity|]. split.
    + intros fuel res Hres.
      apply sgd_Returned in Hres as (st & Hloop & ->).
      apply sgd_loop_Returned in Hloop as (t & Ht & Hrun & _).
      destruct (run_shaped Mat eta lamda epsilon num_topics t _ Hsh) as (st2 & Hrun2 & _ & Hi).
      rewrite Hrun in Hrun2. injection Hrun2 as <-.
      simpl. rewrite Hi. simpl. lia.
    + destruct (sgd_body_closed Mat eta lamda epsilon _ num_topics Hsh)
        as (st1 & _ & Hb & _ & _ & _ & _ & Hi & _).
      eexists st1, _. split; [exact Hb|]. split; [exact Hi|].
      intros x Hx Hlt fuel.
      assert (Hbt : f_lt (f_abs (f_sub (Error2 (init_state Mat num_topics g)) (Error2 st1)))
                      epsilon = true).
      { apply (first_test Mat eta lamda epsilon num_topics _ st1 _ Hsh eq_refl Hb). eauto. }
      unfold sgd. cbn [sgd_loop]. rewrite Hb, Hbt. reflexivity.
  - destruct (cancelling_run epsilon_default 0) as (st' & Hres & _ & Hi & _).
    { unfold epsilon_default. lra. }
    exists (result_of st'). split; [exact Hres|exact Hi].
Qed.

(** C10 on V = [[0, 2]], one topic, eta = 1/2, lamda = 0, epsilon = 1e-05
    and variates 100: the run returns with an iteration count of at least
    1. *)
Lemma first_pass_can_end_the_loop_witness :
  exists res,
    sgd 1 (row2 0 2) 1 (1 / 2) 0 epsilon_default (fun _ => 100) = Returned res /\
    (1 <= result_i res)%nat.
Proof.
  destruct (proj2 first_pass_can_end_the_loop) as (res & Hres & _).
  exists res. split; [exact Hres|].
  exact (proj1 (proj2 (proj1 first_pass_can_end_the_loop
                         (row2 0 2) 1%nat (1 / 2) 0 epsilon_default (fun _ => 100)))
               1%nat res Hres).
Defined.

(** C8: for every V, every rank and all hyperparameters, the factors have
    the shapes (m, d) and (d, n) after any number of passes, no pass raises
    a shape error, and so do the W and H that [sgd] returns. *)
Theorem factor_shapes_are_invariant
    (Mat : ndarray) (num_topics : nat) (eta lamda epsilon : R) (g : rng) :
  (forall k, exists st,
      run Mat eta lamda epsilon k (init_state Mat num_topics g) = Some st /\
      shape (W st) = (nrows Mat, num_topics) /\
      shape (H st) = (num_topics, ncols Mat)) /\
  (forall fuel, sgd fuel Mat num_topics eta lamda epsilon g <> Raised) /\
  (forall fuel res,
      sgd fuel Mat num_topics eta lamda epsilon g = Returned res ->
      shape (result_W res) = (nrows Mat, num_topics) /\
      shape (result_H res) = (num_topics, ncols Mat)).
Proof.
  pose proof (init_state_shaped Mat num_topics g) as Hsh.
  split; [|split].
  - intros k.
    destruct (run_shaped Mat eta lamda epsilon num_topics k _ Hsh) as (st & Hrun & Hst & _).
    exists st. split; [exact Hrun|exact Hst].
  - intros fuel. unfold sgd.
    pose proof (sgd_loop_not_Raised Mat eta lamda epsilon num_topics fuel _ Hsh) as Hnr.
    destruct (sgd_loop Mat eta lamda epsilon fuel (init_state Mat num_topics g));
      congruence.
  - intros fuel res Hres.
    apply sgd_Returned in Hres as (st & Hloop & ->).
    apply sgd_loop_Returned in Hloop as (t & _ & Hrun & _).
    destruct (run_shaped Mat eta lamda epsilon num_topics t _ Hsh) as (st2 & Hrun2 & Hst & _).
    rewrite Hrun in Hrun2. injection Hrun2 as <-. exact Hst.
Qed.

(** C8 on V = [[0, 2]] with one topic: the returned W is 1-by-1 and the
    returned H is 1-by-2. *)
Lemma factor_shapes_are_invariant_witness :
  exists res,
    sgd 1 (row2 0 2) 1 (1 / 2) 0 epsilon_default (fun _ => 100) = Returned res /\
    shape (result_W res) = (1, 1)%nat /\ shape (result_H res) = (1, 2)%nat.
Proof.
  destruct (cancelling_run epsilon_default 0 ltac:(unfold epsilon_default; lra))
    as (st' & Hres & _).
  exists (result_of st'). split; [exact Hres|].
  exact (proj2 (proj2 (factor_shapes_are_invariant
                         (row2 0 2) 1%nat (1 / 2) 0 epsilon_default (fun _ => 100)))
               1%nat _ Hres).
Defined.

(** C5: [sgd] returns, with the state of pass t, exactly when t is the
    first pass at whose end the error estimates of passes t and t-1 are
    less than epsilon apart (the estimate "of pass 0" being the initial
    value of [Error2]); nothing else ends the loop.  With V = [[0]], one
    topic, eta = 1, the default lamda and epsilon and variates 200 no
    pass ever meets the test, and the loop is still running after any
    number of passes. *)
Theorem loop_ends_at_first_small_delta_and_has_no_cap :
  (forall (Mat : ndarray) (num_topics : nat) (eta lamda epsilon : R) (g : rng)
          (fuel : nat) (res : sgd_result),
      sgd fuel Mat num_topics eta lamda epsilon g = Returned res <->
      exists t st,
        (1 <= t <= fuel)%nat /\
        run Mat eta lamda epsilon t (init_state Mat num_topics g) = Some st /\
        res = result_of st /\
        delta_below
          (error_estimate Mat eta lamda epsilon (init_state Mat num_topics g) (t - 1))
          (error_estimate Mat eta lamda epsilon (init_state Mat num_topics g) t)
          epsilon /\
        forall s, (1 <= s < t)%nat ->
          ~ delta_below
              (error_estimate Mat eta lamda epsilon (init_state Mat num_topics g) (s - 1))
              (error_estimate Mat eta lamda epsilon (init_state Mat num_topics g) s)
              epsilon) /\
  (exists (Mat : ndarray) (num_topics : nat) (eta lamda epsilon : R) (g : rng),
      0 < eta /\ 0 <= lamda /\ 0 < epsilon /\
      (forall t, (1 <= t)%nat ->
         ~ delta_below
             (error_estimate Mat eta lamda epsilon (init_state Mat num_topics g) (t - 1))
             (error_estimate Mat eta lamda epsilon (init_state Mat num_topics g) t)
             epsilon) /\
      forall fuel, sgd fuel Mat num_topics eta lamda epsilon g = OutOfFuel).
Proof.
  split.
  - intros Mat num_topics eta lamda epsilon g fuel res.
    rewrite sgd_Returned. split.
    + intros (st & Hloop & ->).
      apply sgd_loop_Returned in Hloop as (t & Ht & Hrun & Hct & Hfirst).
      exists t, st. split; [exact Ht|]. split; [exact Hrun|]. split; [reflexivity|].
      split; [now apply converged_iff|].
      intros s Hs Hd. apply converged_iff in Hd. rewrite (Hfirst s Hs) in Hd. discriminate.
    + intros (t & st & Ht & Hrun & -> & Hd & Hfirst).
      exists st. split; [|reflexivity].
      apply sgd_loop_Returned. exists t. split; [exact Ht|]. split; [exact Hrun|].
      split; [now apply converged_iff|].
      intros s Hs.
      destruct (converged Mat eta lamda epsilon (init_state Mat num_topics g) s) eqn:Hc;
        [|reflexivity].
      apply converged_iff in Hc. now apply Hfirst in Hc.
  - exists (full 1 1 0), 1%nat, 1, lamda_default, epsilon_default, (fun _ => 200).
    assert (Heps : epsilon_default <= 45) by (unfold epsilon_default; lra).
    assert (Hloop : forall fuel,
               sgd_loop (full 1 1 0) 1 lamda_default epsilon_default fuel
                 (init_state (full 1 1 0) 1 (fun _ => 200)) = OutOfFuel).
    { intros fuel. apply blown_up_loops; [exact Heps|apply init_state_blown_up]. }
    split; [lra|]. split; [unfold lamda_default; lra|].
    split; [unfold epsilon_default; lra|]. split.
    + intros t Ht Hd. apply converged_iff in Hd.
      pose proof (proj1 (sgd_loop_OutOfFuel _ _ _ _ 1 t _
                           (init_state_shaped (full 1 1 0) 1 (fun _ => 200)))
                        (Hloop t) t ltac:(lia)) as Hf.
      rewrite Hf in Hd. discriminate.
    + intros fuel. apply sgd_OutOfFuel, Hloop.
Qed.

(** C5 on V = [[0, 2]], one topic, eta = 1/2, lamda = 0, epsilon = 1e-05
    and variates 100: the run returns and pass 1 is the first to meet the
    test. *)
Lemma loop_ends_at_first_small_delta_and_has_no_cap_witness :
  exists res t,
    sgd 1 (row2 0 2) 1 (1 / 2) 0 epsilon_default (fun _ => 100) = Returned res /\
    t = 1%nat /\
    delta_below
      (error_estimate (row2 0 2) (1 / 2) 0 epsilon_default
         (init_state (row2 0 2) 1 (fun _ => 100)) (t - 1))
      (error_estimate (row2 0 2) (1 / 2) 0 epsilon_default
         (init_state (row2 0 2) 1 (fun _ => 100)) t)
      epsilon_default.
Proof.
  destruct (cancelling_run epsilon_default 0 ltac:(unfold epsilon_default; lra))
    as (st' & Hres & _).
  destruct (proj1 (proj1 loop_ends_at_first_small_delta_and_has_no_cap
                     (row2 0 2) 1%nat (1 / 2) 0 epsilon_default (fun _ => 100)
                     1%nat (result_of st')) Hres)
    as (t & st & Ht & _ & _ & Hd & _).
  exists (result_of st'), t. split; [exact Hres|]. split; [lia|exact Hd].
Defined.

(** ** The object store *)

Lemma alloc_spec (a : ndarray) (s s' : Heap.store) (l : Heap.loc) :
  Heap.alloc a s = (l, s') -> s ⊆ s' /\ (l ∉ dom s) /\ s' !! l = Some a.
Proof.
  unfold Heap.alloc. intros [= <- <-].
  pose proof (is_fresh (dom s)) as Hfresh.
  split; [|split].
  - apply insert_subseteq. now apply not_elem_of_dom.
  - exact Hfresh.
  - apply lookup_insert_eq.
Qed.

Lemma call1_refines (f : ndarray -> ndarray) (l : Heap.loc) (s : Heap.store) (a : ndarray) :
  s !! l = Some a ->
  exists l' s', Heap.call1 f l s = Some (l', s') /\
                s ⊆ s' /\ (l' ∉ dom s) /\ s' !! l' = Some (f a).
Proof.
  intros Hl. unfold Heap.call1. rewrite Hl. cbn [mbind option_bind].
  destruct (Heap.alloc (f a) s) as [l' s'] eqn:Ha.
  exists l', s'. split; [reflexivity|]. now apply alloc_spec.
Qed.

Lemma call2_refines (f : ndarray -> ndarray -> option ndarray) (l1 l2 : Heap.loc)
    (s : Heap.store) (a b : ndarray) :
  s !! l1 = Some a -> s !! l2 = Some b ->
  match f a b with
  | Some c => exists l' s', Heap.call2 f l1 l2 s = Some (l', s') /\
                            s ⊆ s' /\ (l' ∉ dom s) /\ s' !! l' = Some c
  | None => Heap.call2 f l1 l2 s = None
  end.
Proof.
  intros Hl1 Hl2. unfold Heap.call2. rewrite Hl1, Hl2. cbn [mbind option_bind].
  destruct (f a b) as [c|]; cbn [mbind option_bind]; [|reflexivity].
  destruct (Heap.alloc c s) as [l' s'] eqn:Ha.
  exists l', s'. split; [reflexivity|]. now apply alloc_spec.
Qed.

Lemma read_refines {A : Type} (f : ndarray -> A) (l : Heap.loc) (s : Heap.store)
    (a : ndarray) :
  s !! l = Some a -> Heap.read f l s = Some (f a).
Proof. intros Hl. unfold Heap.read. now rewrite Hl. Qed.

(** Bindings of a smaller store are bindings of a larger one. *)
Ltac lift_lookups :=
  repeat match goal with
    | Hl : ?s !! ?l = Some ?a, Hs : ?s ⊆ ?s' |- _ =>
        lazymatch goal with
        | _ : s' !! l = Some a |- _ => fail
        | _ => pose proof (lookup_weaken s s' l a Hl Hs)
        end
    end.

(** One call on two arrays, [l'] and [s'] naming its result and the store
    after it: either it raises in both models, or the store grows by the
    result. *)
Ltac step2 f l1 l2 s l' s' :=
  let X := fresh "X" in
  let Hc := fresh "Hcall" in
  match goal with
  | Ha : s !! l1 = Some ?a, Hb : s !! l2 = Some ?b |- _ =>
      pose proof (call2_refines f l1 l2 s a b Ha Hb) as X;
      destruct (f a b) eqn:?;
      [ destruct X as (l' & s' & Hc & ? & ? & ?);
        rewrite Hc; cbn [mbind option_bind]; lift_lookups
      | rewrite X; cbn [mbind option_bind]; try reflexivity ]
  end.

Ltac step1 f l s l' s' :=
  let Hc := fresh "Hcall" in
  match goal with
  | Ha : s !! l = Some ?a |- _ =>
      destruct (call1_refines f l s a Ha) as (l' & s' & Hc & ? & ? & ?);
      rewrite Hc; cbn [mbind option_bind]; lift_lookups
  end.

Ltac step_read f l s :=
  match goal with
  | Ha : s !! l = Some ?a |- _ =>
      rewrite (read_refines f l s a Ha); cbn [mbind option_bind]
  end.

(** The store at the end of a chain of growing stores. *)
Ltac chain_subseteq :=
  first
    [ reflexivity
    | match goal with
      | Hs : ?a ⊆ _ |- ?a ⊆ _ => etrans; [exact Hs|chain_subseteq]
      end ].

Lemma lossfunc_refines (lM lW lH : Heap.loc) (lamda : R) (s : Heap.store)
    (M Wv Hv : ndarray) :
  s !! lM = Some M -> s !! lW = Some Wv -> s !! lH = Some Hv ->
  match lossfunc M Wv Hv lamda with
  | Some l => exists s', Heap.lossfunc lM lW lH lamda s = Some (l, s') /\ s ⊆ s'
  | None => Heap.lossfunc lM lW lH lamda s = None
  end.
Proof.
  intros HM HW HH. unfold lossfunc, Heap.lossfunc.
  step2 matmul lW lH s lP s1.
  step2 np_sub lM lP s1 lD1 s2.
  step_read np_linalg_norm lD1 s2.
  step_read np_linalg_norm lW s2.
  step2 np_sub lM lP s2 lD2 s3; [|congruence].
  step_read np_linalg_norm lD2 s3.
  match goal with E : Some _ = Some _ |- _ => injection E as <- end.
  eexists. split; [reflexivity|]. chain_subseteq.
Qed.

Lemma grads_refines (lM lW lH : Heap.loc) (lamda : R) (s : Heap.store)
    (M Wv Hv : ndarray) :
  s !! lM = Some M -> s !! lW = Some Wv -> s !! lH = Some Hv ->
  match grads M Wv Hv lamda with
  | Some (gw, gh) =>
      exists lgw lgh s',
        Heap.grads lM lW lH lamda s = Some (lgw, lgh, s') /\ s ⊆ s' /\
        s' !! lgw = Some gw /\ s' !! lgh = Some gh
  | None => Heap.grads lM lW lH lamda s = None
  end.
Proof.
  intros HM HW HH. unfold grads, Heap.grads.
  step2 matmul lW lH s lP1 s1.
  step2 np_sub lP1 lM s1 lR1 s2.
  step1 transpose lH s2 lHT s3.
  step2 matmul lR1 lHT s3 lG1 s4.
  step1 (scale lamda) lW s4 lLW s5.
  step2 np_add lG1 lLW s5 lgw s6.
  step1 transpose lW s6 lWT s7.
  step2 matmul lW lH s7 lP2 s8; [|congruence].
  match goal with E : Some _ = Some _ |- _ => injection E as <- end.
  step2 np_sub lP2 lM s8 lR2 s9; [|congruence].
  match goal with E : Some _ = Some _ |- _ => injection E as <- end.
  step2 matmul lWT lR2 s9 lG2 s10.
  step1 (scale lamda) lH s10 lLH s11.
  step2 np_add lG2 lLH s11 lgh s12.
  eexists _, _, _. split; [reflexivity|]. split; [chain_subseteq|]. split; assumption.
Qed.

Lemma repr_weaken (s s' : Heap.store) (hst : Heap.sgd_state) (st : sgd_state) :
  s ⊆ s' -> repr s hst st -> repr s' hst st.
Proof.
  intros Hsub (HW & HH & Hi & HE & HL & Ho & Hwh & Hhh).
  repeat split; try assumption.
  - exact (lookup_weaken _ _ _ _ HW Hsub).
  - exact (lookup_weaken _ _ _ _ HH Hsub).
  - eapply Forall2_impl; [exact Hwh|]. intros l a Hl. exact (lookup_weaken _ _ _ _ Hl Hsub).
  - eapply Forall2_impl; [exact Hhh|]. intros l a Hl. exact (lookup_weaken _ _ _ _ Hl Hsub).
Qed.

Lemma fresh_weaken (s s' : Heap.store) (l : Heap.loc) :
  s ⊆ s' -> l ∉ dom s' -> l ∉ dom s.
Proof. intros Hsub Hl Hin. apply Hl. revert Hin. now apply subseteq_dom. Qed.

(** One pass over the store does what the pass on values does, allocates
    the new factors and changes no object that was there. *)
Lemma sgd_body_refines (lM : Heap.loc) (M : ndarray) (eta lamda epsilon : R)
    (s : Heap.store) (hst : Heap.sgd_state) (st : sgd_state) :
  s !! lM = Some M -> repr s hst st ->
  match sgd_body M eta lamda epsilon st with
  | Some (st', b) =>
      exists hst' s',
        Heap.sgd_body lM eta lamda epsilon hst s = Some (hst', b, s') /\
        s ⊆ s' /\ repr s' hst' st' /\
        (Heap.W hst' ∉ dom s) /\ (Heap.H hst' ∉ dom s)
  | None => Heap.sgd_body lM eta lamda epsilon hst s = None
  end.
Proof.
  intros HM Hrepr.
  destruct hst as [lW lH hi hE hwh hhh hlh hout].
  destruct st as [Wv Hv iv Ev wh hh lh out].
  destruct Hrepr as (HW & HH & Hi & HE & HL & Ho & Hwh & Hhh).
  cbn in HW, HH, Hi, HE, HL, Ho, Hwh, Hhh. subst hi hE hlh hout.
  unfold sgd_body, Heap.sgd_body.
  cbn [W H i Error2 w_history h_history loss_history stdout
       Heap.W Heap.H Heap.i Heap.Error2 Heap.w_history Heap.h_history
       Heap.loss_history Heap.stdout].
  pose proof (lossfunc_refines lM lW lH lamda s M Wv Hv HM HW HH) as XL.
  destruct (lossfunc M Wv Hv lamda) as [Loss|];
    [destruct XL as (s1 & -> & Hs1)|rewrite XL; reflexivity].
  cbn [mbind option_bind]. lift_lookups.
  pose proof (grads_refines lM lW lH lamda s1 M Wv Hv
                ltac:(assumption) ltac:(assumption) ltac:(assumption)) as XG.
  destruct (grads M Wv Hv lamda) as [[gw gh]|];
    [destruct XG as (lgw & lgh & s2 & -> & Hs2 & Hgw & Hgh)|rewrite XG; reflexivity].
  cbn [mbind option_bind]. lift_lookups.
  step1 (scale eta) lgw s2 lEW s3.
  step2 np_sub lW lEW s3 lW' s4.
  step1 (scale eta) lgh s4 lEH s5.
  step2 np_sub lH lEH s5 lH' s6.
  step2 matmul lW' lH' s6 lP s7.
  step2 np_sub lM lP s7 lD s8.
  step_read np_mean lD s8.
  eexists _, s8. split; [reflexivity|].
  assert (Hsub : s ⊆ s8) by chain_subseteq.
  split; [exact Hsub|]. split; [|split].
  - repeat split; cbn; try assumption; try reflexivity.
    + apply Forall2_app.
      * eapply Forall2_impl; [exact Hwh|].
        intros l a Hl. exact (lookup_weaken _ _ _ _ Hl Hsub).
      * constructor; [exact (lookup_weaken _ _ _ _ HW Hsub)|constructor].
    + apply Forall2_app.
      * eapply Forall2_impl; [exact Hhh|].
        intros l a Hl. exact (lookup_weaken _ _ _ _ Hl Hsub).
      * constructor; [exact (lookup_weaken _ _ _ _ HH Hsub)|constructor].
  - cbn. apply (fresh_weaken s s3); [chain_subseteq|assumption].
  - cbn. apply (fresh_weaken s s5); [chain_subseteq|assumption].
Qed.

Lemma sgd_loop_refines (lM : Heap.loc) (M : ndarray) (eta lamda epsilon : R) (fuel : nat) :
  forall (s : Heap.store) (hst : Heap.sgd_state) (st : sgd_state),
    s !! lM = Some M -> repr s hst st ->
    match sgd_loop M eta lamda epsilon fuel st with
    | Returned st' =>
        exists hst' s',
          Heap.sgd_loop lM eta lamda epsilon fuel hst s = Returned (hst', s') /\
          s ⊆ s' /\ repr s' hst' st' /\
          (Heap.W hst' ∉ dom s) /\ (Heap.H hst' ∉ dom s)
    | Raised => Heap.sgd_loop lM eta lamda epsilon fuel hst s = Raised
    | OutOfFuel => Heap.sgd_loop lM eta lamda epsilon fuel hst s = OutOfFuel
    end.
Proof.
  induction fuel as [|fuel IH]; intros s hst st HM Hrepr; simpl; [reflexivity|].
  pose proof (sgd_body_refines lM M eta lamda epsilon s hst st HM Hrepr) as XB.
  destruct (sgd_body M eta lamda epsilon st) as [[st1 b]|]; [|now rewrite XB].
  destruct XB as (hst1 & s1 & -> & Hs1 & Hrepr1 & HfW & HfH).
  destruct b.
  - exists hst1, s1. auto.
  - specialize (IH s1 hst1 st1 (lookup_weaken _ _ _ _ HM Hs1) Hrepr1).
    destruct (sgd_loop M eta lamda epsilon fuel st1) as [st'| |]; [|exact IH..].
    destruct IH as (hst' & s' & -> & Hs' & Hrepr' & HfW' & HfH').
    exists hst', s'. split; [reflexivity|]. split; [chain_subseteq|].
    split; [exact Hrepr'|]. split; eapply fresh_weaken; eassumption.
Qed.

Lemma init_state_refines (lM : Heap.loc) (M : ndarray) (num_topics : nat) (g : rng)
    (s : Heap.store) :
  s !! lM = Some M ->
  exists hst0 s0,
    Heap.init_state lM num_topics g s = Some (hst0, s0) /\
    s ⊆ s0 /\ repr s0 hst0 (init_state M num_topics g).
Proof.
  intros HM. unfold Heap.init_state.
  rewrite (read_refines shape lM s M HM). cbn [mbind option_bind shape random_normal].
  destruct (Heap.alloc
              {| nrows := nrows M; ncols := num_topics;
                 item := fun r c => 0 + 0.01 * g (r * num_topics + c)%nat |} s)
    as [lRW s1] eqn:Ha1.
  apply alloc_spec in Ha1 as (Hs1 & _ & HRW).
  step1 np_abs lRW s1 lW0 s2.
  match goal with
  | |- context [Heap.alloc ?a s2] => destruct (Heap.alloc a s2) as [lRH s3] eqn:Ha3
  end.
  apply alloc_spec in Ha3 as (Hs3 & _ & HRH). lift_lookups.
  step1 np_abs lRH s3 lH0 s4.
  eexists _, s4. split; [reflexivity|]. split; [chain_subseteq|].
  repeat split; cbn; try assumption; try reflexivity; constructor.
Qed.

(** [sgd] over the store ends as [sgd] on values does; when it returns,
    the store has only grown and the returned identities are new and bound
    to the returned arrays. *)
Lemma sgd_refines (lM : Heap.loc) (M : ndarray) (num_topics : nat)
    (eta lamda epsilon : R) (g : rng) (fuel : nat) (s : Heap.store) :
  s !! lM = Some M ->
  match sgd fuel M num_topics eta lamda epsilon g with
  | Returned res =>
      exists hres s',
        Heap.sgd fuel lM num_topics eta lamda epsilon g s = Returned (hres, s') /\
        s ⊆ s' /\
        s' !! Heap.result_W hres = Some (result_W res) /\
        s' !! Heap.result_H hres = Some (result_H res) /\
        (Heap.result_W hres ∉ dom s) /\ (Heap.result_H hres ∉ dom s)
  | Raised => Heap.sgd fuel lM num_topics eta lamda epsilon g s = Raised
  | OutOfFuel => Heap.sgd fuel lM num_topics eta lamda epsilon g s = OutOfFuel
  end.
Proof.
  intros HM.
  destruct (init_state_refines lM M num_topics g s HM) as (hst0 & s0 & Hinit & Hs0 & Hrepr0).
  unfold sgd, Heap.sgd. rewrite Hinit.
  pose proof (sgd_loop_refines lM M eta lamda epsilon fuel s0 hst0 _
                (lookup_weaken _ _ _ _ HM Hs0) Hrepr0) as XL.
  destruct (sgd_loop M eta lamda epsilon fuel (init_state M num_topics g)) as [st'| |];
    [|now rewrite XL..].
  destruct XL as (hst' & s' & -> & Hs' & Hrepr' & HfW & HfH).
  exists (Heap.result_of hst'), s'. split; [reflexivity|].
  split; [chain_subseteq|].
  destruct Hrepr' as (HW & HH & _). cbn.
  split; [exact HW|]. split; [exact HH|].
  split; eapply fresh_weaken; eassumption.
Qed.

(** C9: when [sgd] returns, the array passed as Mat is the same object
    holding the same array as before the call, every other array that
    existed before the call is unchanged too, and the returned W and H are
    objects that did not exist before the call, hence not Mat; they hold
    the factors computed from the values. *)
Theorem sgd_never_mutates_its_input
    (fuel : nat) (lMat : Heap.loc) (num_topics : nat) (eta lamda epsilon : R) (g : rng)
    (s s' : Heap.store) (hres : Heap.sgd_result) :
  Heap.sgd fuel lMat num_topics eta lamda epsilon g s = Returned (hres, s') ->
  exists Mat,
    s !! lMat = Some Mat /\
    s' !! lMat = Some Mat /\
    (forall l a, s !! l = Some a -> s' !! l = Some a) /\
    (Heap.result_W hres ∉ dom s) /\ (Heap.result_H hres ∉ dom s) /\
    Heap.result_W hres <> lMat /\ Heap.result_H hres <> lMat /\
    exists res,
      sgd fuel Mat num_topics eta lamda epsilon g = Returned res /\
      s' !! Heap.result_W hres = Some (result_W res) /\
      s' !! Heap.result_H hres = Some (result_H res).
Proof.
  intros Hret.
  destruct (s !! lMat) as [Mat|] eqn:HM.
  - exists Mat. split; [reflexivity|].
    pose proof (sgd_refines lMat Mat num_topics eta lamda epsilon g fuel s HM) as X.
    destruct (sgd fuel Mat num_topics eta lamda epsilon g) as [res| |];
      [|congruence..].
    destruct X as (hres0 & s0 & Hret0 & Hsub & HW & HH & HfW & HfH).
    rewrite Hret in Hret0. injection Hret0 as <- <-.
    assert (HMdom : lMat ∈ dom s) by (apply elem_of_dom; eauto).
    split; [exact (lookup_weaken _ _ _ _ HM Hsub)|].
    split; [intros l a Hl; exact (lookup_weaken _ _ _ _ Hl Hsub)|].
    split; [exact HfW|]. split; [exact HfH|].
    split; [intros E; rewrite E in HfW; contradiction|].
    split; [intros E; rewrite E in HfH; contradiction|].
    exists res. auto.
  - unfold Heap.sgd, Heap.init_state, Heap.read in Hret. rewrite HM in Hret.
    discriminate.
Qed.

(** C9 on a store holding V = [[0, 2]] as its only object: the call
    returns and the object is still bound to [[0, 2]]. *)
Lemma sgd_never_mutates_its_input_witness :
  exists hres s',
    Heap.sgd 1 1%positive 1 (1 / 2) 0 epsilon_default (fun _ => 100)
      {[ 1%positive := row2 0 2 ]} = Returned (hres, s') /\
    s' !! 1%positive = Some (row2 0 2) /\
    Heap.result_W hres <> 1%positive /\ Heap.result_H hres <> 1%positive.
Proof.
  pose proof (sgd_refines 1%positive (row2 0 2) 1 (1 / 2) 0 epsilon_default
                (fun _ => 100) 1 {[ 1%positive := row2 0 2 ]}
                (lookup_singleton_eq _ _)) as X.
  destruct (cancelling_run epsilon_default 0 ltac:(unfold epsilon_default; lra))
    as (st' & Hres & _).
  rewrite Hres in X. destruct X as (hres & s' & Hret & _).
  exists hres, s'. split; [exact Hret|].
  destruct (sgd_never_mutates_its_input _ _ _ _ _ _ _ _ _ _ Hret)
    as (Mat & HM & HM' & _ & _ & _ & HW & HH & _).
  rewrite lookup_singleton_eq in HM. injection HM as <-.
  split; [exact HM'|]. split; [exact HW|exact HH].
Defined.

(** * Further properties of [sgd], [lossfunc] and [grads] *)

(** ** What the returned tuple holds *)

Section Bookkeeping.

Variable Mat : ndarray.
Variables eta lamda epsilon : R.

(** A property that every pass keeps holds after any number of passes. *)
Lemma run_invariant (P : sgd_state -> Prop) (k : nat) (st0 st : sgd_state) :
  P st0 ->
  (forall st1 st2 b, P st1 -> sgd_body Mat eta lamda epsilon st1 = Some (st2, b) -> P st2) ->
  run Mat eta lamda epsilon k st0 = Some st -> P st.
Proof.
  intros H0 Hstep. revert st. induction k as [|k IH]; intros st Hrun.
  - injection Hrun as <-. exact H0.
  - simpl in Hrun. destruct (run Mat eta lamda epsilon k st0) as [st1|]; [|discriminate].
    cbn [mbind option_bind] in Hrun.
    destruct (sgd_body Mat eta lamda epsilon st1) as [[st2 b]|] eqn:Hb; [|discriminate].
    injection Hrun as <-. exact (Hstep st1 st2 b (IH st1 eq_refl) Hb).
Qed.

(** The last pass of a run. *)
Lemma run_last (k : nat) (st0 st : sgd_state) :
  run Mat eta lamda epsilon (S k) st0 = Some st ->
  exists st1 b, run Mat eta lamda epsilon k st0 = Some st1 /\
                sgd_body Mat eta lamda epsilon st1 = Some (st, b).
Proof.
  simpl. destruct (run Mat eta lamda epsilon k st0) as [st1|]; [|discriminate].
  cbn [mbind option_bind].
  destruct (sgd_body Mat eta lamda epsilon st1) as [[st2 b]|] eqn:Hb; [|discriminate].
  intros [= <-]. eauto.
Qed.

Lemma counted_step (st1 st2 : sgd_state) (b : bool) :
  counted st1 -> sgd_body Mat eta lamda epsilon st1 = Some (st2, b) -> counted st2.
Proof.
  intros (HL & HW & HH & HO) Hb.
  destruct (sgd_body_inv _ _ _ _ _ _ _ Hb)
    as (Loss & _ & _ & _ & _ & _ & _ & _ & _ & _ & _ & _ & Hi & HLh & HWh & HHh & HOh & _).
  unfold counted. rewrite Hi, HLh, HWh, HHh, HOh, !length_app. simpl. lia.
Qed.

End Bookkeeping.

(** The state from which a returned tuple was read. *)
Lemma sgd_Returned_run (fuel : nat) (Mat : ndarray) (num_topics : nat)
    (eta lamda epsilon : R) (g : rng) (res : sgd_result) :
  sgd fuel Mat num_topics eta lamda epsilon g = Returned res ->
  exists t st,
    (1 <= t <= fuel)%nat /\
    run Mat eta lamda epsilon t (init_state Mat num_topics g) = Some st /\
    res = result_of st /\
    converged Mat eta lamda epsilon (init_state Mat num_topics g) t = true.
Proof.
  intros Hres. apply sgd_Returned in Hres as (st & Hloop & ->).
  apply sgd_loop_Returned in Hloop as (t & Ht & Hrun & Hc & _).
  exists t, st. auto.
Qed.

(** X1: in the tuple [sgd] returns, the iteration count is at least 1 and
    is the length of [loss_history], of [w_history] and of [h_history]. *)
Theorem histories_have_one_entry_per_pass
    (fuel : nat) (Mat : ndarray) (num_topics : nat) (eta lamda epsilon : R) (g : rng)
    (res : sgd_result) :
  sgd fuel Mat num_topics eta lamda epsilon g = Returned res ->
  (1 <= result_i res)%nat /\
  length (result_loss_history res) = result_i res /\
  length (result_w_history res) = result_i res /\
  length (result_h_history res) = result_i res.
Proof.
  intros Hres.
  destruct (sgd_Returned_run _ _ _ _ _ _ _ _ Hres) as (t & st & Ht & Hrun & -> & _).
  assert (Hc : counted st).
  { apply (run_invariant Mat eta lamda epsilon counted t (init_state Mat num_topics g));
      [repeat split|apply counted_step|exact Hrun]. }
  destruct (run_shaped Mat eta lamda epsilon num_topics t _
              (init_state_shaped Mat num_topics g)) as (st' & Hrun' & _ & Hi).
  rewrite Hrun in Hrun'. injection Hrun' as <-.
  destruct Hc as (HL & HW & HH & _). cbn in Hi. cbn.
  repeat split; lia.
Qed.

Lemma histories_have_one_entry_per_pass_witness :
  exists res,
    sgd 1 (row2 0 2) 1 (1 / 2) 0 epsilon_default (fun _ => 100) = Returned res /\
    length (result_loss_history res) = result_i res.
Proof.
  destruct (cancelling_run epsilon_default 0 ltac:(unfold epsilon_default; lra))
    as (st' & Hres & _).
  exists (result_of st'). split; [exact Hres|].
  exact (proj1 (proj2 (histories_have_one_entry_per_pass _ _ _ _ _ _ _ _ Hres))).
Defined.

Lemma losses_recorded_step (Mat : ndarray) (eta lamda epsilon : R)
    (st1 st2 : sgd_state) (b : bool) :
  losses_recorded Mat lamda st1 ->
  sgd_body Mat eta lamda epsilon st1 = Some (st2, b) ->
  losses_recorded Mat lamda st2.
Proof.
  intros [Hc Hrec] Hb.
  split; [exact (counted_step Mat eta lamda epsilon st1 st2 b Hc Hb)|].
  destruct Hc as (HL & HW & HH & _).
  destruct (sgd_body_inv _ _ _ _ _ _ _ Hb)
    as (Loss & _ & _ & _ & _ & HLoss & _ & _ & _ & _ & _ & _ & _ & HLh & HWh & HHh & _).
  rewrite HLh, HWh, HHh. intros k Wk Hk HWk HHk.
  apply lookup_snoc_Some in HWk as [[Hlt HWk]|[-> <-]];
    apply lookup_snoc_Some in HHk as [[Hlt' HHk]|[Hk' <-]]; try lia.
  - destruct (Hrec k Wk Hk HWk HHk) as (l & Hl & Hloss).
    exists l. split; [now apply lookup_app_l_Some|exact Hloss].
  - exists Loss. split; [|exact HLoss]. apply list_lookup_middle. lia.
Qed.

Lemma trajectory_step (Mat : ndarray) (eta lamda epsilon : R) (d : nat) (W0 H0 : ndarray)
    (st1 st2 : sgd_state) (b : bool) :
  trajectory Mat eta lamda d W0 H0 st1 ->
  sgd_body Mat eta lamda epsilon st1 = Some (st2, b) ->
  trajectory Mat eta lamda d W0 H0 st2.
Proof.
  intros (Hsh & Hc & HW0 & HH0 & Hstep) Hb.
  destruct (sgd_body_spec Mat eta lamda epsilon st1 d Hsh)
    as (st' & b' & Hb' & Hsh2 & HWi & HHi).
  rewrite Hb in Hb'. injection Hb' as <- <-.
  pose proof (counted_step Mat eta lamda epsilon st1 st2 b Hc Hb) as Hc2.
  destruct (sgd_body_inv _ _ _ _ _ _ _ Hb)
    as (_ & _ & _ & _ & _ & _ & _ & _ & _ & _ & _ & _ & _ & _ & HWh & HHh & _).
  destruct Hc as (_ & HWl & HHl & _).
  split; [exact Hsh2|]. split; [exact Hc2|]. rewrite HWh, HHh.
  split; [apply lookup_app_l_Some; exact HW0|].
  split; [apply lookup_app_l_Some; exact HH0|].
  intros k Wk Hk W' H' HWk HHk HW' HH'.
  apply lookup_snoc_Some in HW' as [[Hlt HW']|[Hlen <-]];
    apply lookup_snoc_Some in HH' as [[Hlt' HH']|[Hlen' <-]];
    rewrite ?length_app in *; simpl in *; try lia.
  - rewrite lookup_app_l in HWk by (rewrite length_app; simpl; lia).
    rewrite lookup_app_l in HHk by (rewrite length_app; simpl; lia).
    exact (Hstep k Wk Hk W' H' HWk HHk HW' HH').
  - rewrite lookup_app_l in HWk by (rewrite length_app; simpl; lia).
    rewrite lookup_app_l in HHk by (rewrite length_app; simpl; lia).
    rewrite list_lookup_middle in HWk by lia.
    rewrite list_lookup_middle in HHk by lia.
    injection HWk as <-. injection HHk as <-.
    destruct Hsh as [HWs HHs]. destruct Hsh2 as [HWs2 HHs2].
    split; [congruence|]. split; [congruence|]. split; assumption.
Qed.

Lemma init_state_trajectory (Mat : ndarray) (eta lamda : R) (num_topics : nat) (g : rng) :
  trajectory Mat eta lamda num_topics
    (W (init_state Mat num_topics g)) (H (init_state Mat num_topics g))
    (init_state Mat num_topics g).
Proof.
  split; [apply init_state_shaped|]. split; [repeat split|].
  split; [reflexivity|]. split; [reflexivity|].
  intros k Wk Hk W' H' _ _ HW'. simpl in HW'. discriminate.
Qed.

(** X2: in the tuple [sgd] returns, for every k below the iteration
    count, [loss_history[k]] is [lossfunc] at [w_history[k]] and
    [h_history[k]]. *)
Theorem loss_history_matches_factor_histories
    (fuel : nat) (Mat : ndarray) (num_topics : nat) (eta lamda epsilon : R) (g : rng)
    (res : sgd_result) :
  sgd fuel Mat num_topics eta lamda epsilon g = Returned res ->
  forall k, (k < result_i res)%nat ->
    exists Wk Hk l,
      result_w_history res !! k = Some Wk /\
      result_h_history res !! k = Some Hk /\
      result_loss_history res !! k = Some l /\
      lossfunc Mat Wk Hk lamda = Some l.
Proof.
  intros Hres k Hk.
  destruct (sgd_Returned_run _ _ _ _ _ _ _ _ Hres) as (t & st & Ht & Hrun & -> & _).
  assert (Hrec : losses_recorded Mat lamda st).
  { apply (run_invariant Mat eta lamda epsilon (losses_recorded Mat lamda) t
             (init_state Mat num_topics g)); [|apply losses_recorded_step|exact Hrun].
    split; [repeat split|]. intros j Wj Hj HWj. simpl in HWj. discriminate. }
  destruct Hrec as [(HL & HW & HH & _) Hrec]. cbn in Hk |- *.
  destruct (lookup_lt_is_Some_2 (w_history st) k ltac:(lia)) as [Wk HWk].
  destruct (lookup_lt_is_Some_2 (h_history st) k ltac:(lia)) as [Hk' HHk].
  destruct (Hrec k Wk Hk' HWk HHk) as (l & Hl & Hloss).
  exists Wk, Hk', l. auto.
Qed.

Lemma loss_history_matches_factor_histories_witness :
  exists res Wk Hk l,
    sgd 1 (row2 0 2) 1 (1 / 2) 0 epsilon_default (fun _ => 100) = Returned res /\
    result_w_history res !! O = Some Wk /\
    result_h_history res !! O = Some Hk /\
    result_loss_history res !! O = Some l /\
    lossfunc (row2 0 2) Wk Hk 0 = Some l.
Proof.
  destruct (cancelling_run epsilon_default 0 ltac:(unfold epsilon_default; lra))
    as (st' & Hres & _ & Hi & _).
  destruct (loss_history_matches_factor_histories _ _ _ _ _ _ _ _ Hres 0)
    as (Wk & Hk & l & HWk & HHk & Hl & Hloss); [cbn; lia|].
  exists (result_of st'), Wk, Hk, l. auto.
Defined.

(** X3: in the tuple [sgd] returns, [w_history] and [h_history] start
    with the initial factors, each further entry is one update away from
    the entry before it, and the returned W and H are one update away from
    the last entries: the histories hold the factors before each pass and
    do not hold the returned factors. *)
Theorem histories_are_the_trajectory
    (fuel : nat) (Mat : ndarray) (num_topics : nat) (eta lamda epsilon : R) (g : rng)
    (res : sgd_result) :
  sgd fuel Mat num_topics eta lamda epsilon g = Returned res ->
  (result_w_history res ++ [result_W res]) !! O = Some (W (init_state Mat num_topics g)) /\
  (result_h_history res ++ [result_H res]) !! O = Some (H (init_state Mat num_topics g)) /\
  forall k, (k < result_i res)%nat ->
    exists Wk Hk W' H',
      (result_w_history res ++ [result_W res]) !! k = Some Wk /\
      (result_h_history res ++ [result_H res]) !! k = Some Hk /\
      (result_w_history res ++ [result_W res]) !! S k = Some W' /\
      (result_h_history res ++ [result_H res]) !! S k = Some H' /\
      updated Mat eta lamda Wk Hk W' H'.
Proof.
  intros Hres.
  destruct (sgd_Returned_run _ _ _ _ _ _ _ _ Hres) as (t & st & Ht & Hrun & -> & _).
  assert (Htr : trajectory Mat eta lamda num_topics
                  (W (init_state Mat num_topics g)) (H (init_state Mat num_topics g)) st).
  { apply (run_invariant Mat eta lamda epsilon _ t (init_state Mat num_topics g));
      [apply init_state_trajectory| |exact Hrun].
    intros st1 st2 b. apply trajectory_step. }
  destruct Htr as (_ & (_ & HWl & HHl & _) & HW0 & HH0 & Hstep). cbn.
  split; [exact HW0|]. split; [exact HH0|]. intros k Hk.
  destruct (lookup_lt_is_Some_2 (w_history st ++ [W st]) k) as [Wk HWk];
    [rewrite length_app; simpl; lia|].
  destruct (lookup_lt_is_Some_2 (h_history st ++ [H st]) k) as [Hk' HHk];
    [rewrite length_app; simpl; lia|].
  destruct (lookup_lt_is_Some_2 (w_history st ++ [W st]) (S k)) as [W' HW'];
    [rewrite length_app; simpl; lia|].
  destruct (lookup_lt_is_Some_2 (h_history st ++ [H st]) (S k)) as [H' HH'];
    [rewrite length_app; simpl; lia|].
  exists Wk, Hk', W', H'. repeat split; try assumption;
    apply (Hstep k Wk Hk' W' H' HWk HHk HW' HH').
Qed.

Lemma histories_are_the_trajectory_witness :
  exists res,
    sgd 1 (row2 0 2) 1 (1 / 2) 0 epsilon_default (fun _ => 100) = Returned res /\
    (result_w_history res ++ [result_W res]) !! O
      = Some (W (init_state (row2 0 2) 1 (fun _ => 100))).
Proof.
  destruct (cancelling_run epsilon_default 0 ltac:(unfold epsilon_default; lra))
    as (st' & Hres & _).
  exists (result_of st'). split; [exact Hres|].
  exact (proj1 (histories_are_the_trajectory _ _ _ _ _ _ _ _ Hres)).
Defined.

(** ** The error that is returned, and runs that never return *)

(** A returned tuple was read after a pass whose estimate is a number. *)
Lemma returned_error (fuel : nat) (Mat : ndarray) (num_topics : nat)
    (eta lamda epsilon : R) (g : rng) (res : sgd_result) :
  sgd fuel Mat num_topics eta lamda epsilon g = Returned res ->
  exists m,
    residual_mean Mat (result_W res) (result_H res) = Fin m /\
    result_Error res = Fin (Rabs m) /\
    (0 < nrows Mat * ncols Mat)%nat /\
    0 < epsilon.
Proof.
  intros Hres.
  destruct (sgd_Returned_run _ _ _ _ _ _ _ _ Hres) as (t & st & Ht & Hrun & -> & Hc).
  destruct t as [|k]; [lia|].
  destruct (run_last Mat eta lamda epsilon k _ _ Hrun) as (st1 & b & Hrun1 & Hb).
  destruct (run_shaped Mat eta lamda epsilon num_topics k _
              (init_state_shaped Mat num_topics g)) as (st1' & Hrun1' & Hsh1 & _).
  rewrite Hrun1 in Hrun1'. injection Hrun1' as <-.
  pose proof (sgd_body_error Mat eta lamda epsilon st1 st b num_topics Hsh1 Hb) as HE.
  apply converged_iff in Hc as (x & y & Hx & _ & Hlt).
  unfold error_estimate in Hx. rewrite Hrun in Hx. cbn.
  rewrite HE in Hx |- *.
  destruct (residual_mean Mat (W st) (H st)) as [m|] eqn:Hm; [|discriminate].
  exists m. split; [reflexivity|]. split; [reflexivity|]. split.
  - unfold residual_mean in Hm.
    destruct (Nat.eqb_spec (nrows Mat * ncols Mat) 0); [discriminate|lia].
  - pose proof (Rabs_pos (x - y)). lra.
Qed.

(** X4: the [Error] that [sgd] returns is a number, never NaN: the
    absolute value of the mean of the residual Mat - WH at the returned W
    and H. *)
Theorem returned_error_is_abs_mean_residual_of_returned_factors
    (fuel : nat) (Mat : ndarray) (num_topics : nat) (eta lamda epsilon : R) (g : rng)
    (res : sgd_result) :
  sgd fuel Mat num_topics eta lamda epsilon g = Returned res ->
  exists m,
    residual_mean Mat (result_W res) (result_H res) = Fin m /\
    result_Error res = Fin (Rabs m).
Proof.
  intros Hres. destruct (returned_error _ _ _ _ _ _ _ _ Hres) as (m & Hm & HE & _).
  eauto.
Qed.

Lemma returned_error_is_abs_mean_residual_of_returned_factors_witness :
  exists res m,
    sgd 1 (row2 0 2) 1 (1 / 2) 0 epsilon_default (fun _ => 100) = Returned res /\
    residual_mean (row2 0 2) (result_W res) (result_H res) = Fin m /\
    result_Error res = Fin (Rabs m).
Proof.
  destruct (cancelling_run epsilon_default 0 ltac:(unfold epsilon_default; lra))
    as (st' & Hres & _).
  destruct (returned_error_is_abs_mean_residual_of_returned_factors _ _ _ _ _ _ _ _ Hres)
    as (m & Hm & HE).
  exists (result_of st'), m. auto.
Defined.

Lemma sgd_not_Raised (fuel : nat) (Mat : ndarray) (num_topics : nat)
    (eta lamda epsilon : R) (g : rng) :
  sgd fuel Mat num_topics eta lamda epsilon g <> Raised.
Proof.
  unfold sgd.
  pose proof (sgd_loop_not_Raised Mat eta lamda epsilon num_topics fuel _
                (init_state_shaped Mat num_topics g)) as Hnr.
  destruct (sgd_loop Mat eta lamda epsilon fuel (init_state Mat num_topics g)); congruence.
Qed.

(** X5: on a Mat without entries (no row or no column) [sgd] never
    returns and never raises: every error estimate is NaN, every test
    fails, and the loop is still running after any number of passes. *)
Theorem empty_input_loops_forever
    (Mat : ndarray) (num_topics : nat) (eta lamda epsilon : R) (g : rng) :
  (nrows Mat * ncols Mat = 0)%nat ->
  forall fuel, sgd fuel Mat num_topics eta lamda epsilon g = OutOfFuel.
Proof.
  intros Hempty fuel.
  destruct (sgd fuel Mat num_topics eta lamda epsilon g) as [res| |] eqn:Hres.
  - destruct (returned_error _ _ _ _ _ _ _ _ Hres) as (_ & _ & _ & Hpos & _). lia.
  - now apply sgd_not_Raised in Hres.
  - reflexivity.
Qed.

Lemma empty_input_loops_forever_witness :
  sgd 7 (full 0 3 0) 2 eta_default lamda_default epsilon_default (fun _ => 1) = OutOfFuel.
Proof.
  apply (empty_input_loops_forever (full 0 3 0) 2 eta_default lamda_default
           epsilon_default (fun _ => 1)).
  reflexivity.
Defined.

(** X6: with an epsilon that is zero or negative [sgd] never returns,
    whatever the data: no absolute difference is below it. *)
Theorem nonpositive_epsilon_loops_forever
    (Mat : ndarray) (num_topics : nat) (eta lamda epsilon : R) (g : rng) :
  epsilon <= 0 ->
  forall fuel, sgd fuel Mat num_topics eta lamda epsilon g = OutOfFuel.
Proof.
  intros Heps fuel.
  destruct (sgd fuel Mat num_topics eta lamda epsilon g) as [res| |] eqn:Hres.
  - destruct (returned_error _ _ _ _ _ _ _ _ Hres) as (_ & _ & _ & _ & Hpos). lra.
  - now apply sgd_not_Raised in Hres.
  - reflexivity.
Qed.

Lemma nonpositive_epsilon_loops_forever_witness :
  sgd 7 (row2 0 2) 1 eta_default lamda_default 0 (fun _ => 1) = OutOfFuel.
Proof.
  apply (nonpositive_epsilon_loops_forever (row2 0 2) 1 eta_default lamda_default 0
           (fun _ => 1)).
  lra.
Defined.

(** ** Stationary points *)

Lemma same_entries_sym (A B : ndarray) : same_entries A B -> same_entries B A.
Proof.
  intros [Hs He]. unfold shape in Hs. injection Hs as Hr Hc.
  split; [unfold shape; congruence|].
  intros r c Hlr Hlc. symmetry. apply He; lia.
Qed.

Lemma same_entries_trans (A B C : ndarray) :
  same_entries A B -> same_entries B C -> same_entries A C.
Proof.
  intros [Hs1 He1] [Hs2 He2]. unfold shape in Hs1, Hs2.
  injection Hs1 as Hr1 Hc1. injection Hs2 as Hr2 Hc2.
  split; [unfold shape; congruence|].
  intros r c Hlr Hlc. rewrite He1 by lia. apply He2; lia.
Qed.

Lemma prod_entry_ext (W1 H1 W2 H2 : ndarray) (r c : nat) :
  same_entries W1 W2 -> same_entries H1 H2 -> ncols W1 = nrows H1 ->
  (r < nrows W1)%nat -> (c < ncols H1)%nat ->
  prod_entry W1 H1 r c = prod_entry W2 H2 r c.
Proof.
  intros [HsW HeW] [HsH HeH] Hin Hr Hc. unfold shape in HsW, HsH.
  injection HsW as HWr HWc. injection HsH as HHr HHc.
  unfold prod_entry. rewrite <- HWc.
  apply sum_upto_ext; intros l Hl. rewrite HeW, HeH by lia. reflexivity.
Qed.

Lemma grad_entries_ext (V W1 H1 W2 H2 : ndarray) (lamda : R) (d : nat) :
  shape W1 = (nrows V, d) -> shape H1 = (d, ncols V) ->
  same_entries W1 W2 -> same_entries H1 H2 ->
  (forall r c, (r < nrows V)%nat -> (c < d)%nat ->
     grad_w_entry V W1 H1 lamda r c = grad_w_entry V W2 H2 lamda r c) /\
  (forall r c, (r < d)%nat -> (c < ncols V)%nat ->
     grad_h_entry V W1 H1 lamda r c = grad_h_entry V W2 H2 lamda r c).
Proof.
  unfold shape. intros [= HWr HWc] [= HHr HHc] HW HH.
  pose proof HW as [_ HeW]. pose proof HH as [_ HeH].
  split; intros r c Hr Hc.
  - unfold grad_w_entry. rewrite (HeW r c) by lia. f_equal.
    apply sum_upto_ext; intros k Hk.
    rewrite (prod_entry_ext W1 H1 W2 H2 r k HW HH) by lia.
    rewrite (HeH c k) by lia. reflexivity.
  - unfold grad_h_entry. rewrite (HeH r c) by lia. f_equal.
    apply sum_upto_ext; intros k Hk.
    rewrite (prod_entry_ext W1 H1 W2 H2 k c HW HH) by lia.
    rewrite (HeW k r) by lia. reflexivity.
Qed.

Lemma residual_mean_ext (V W1 H1 W2 H2 : ndarray) (d : nat) :
  shape W1 = (nrows V, d) -> shape H1 = (d, ncols V) ->
  same_entries W1 W2 -> same_entries H1 H2 ->
  residual_mean V W1 H1 = residual_mean V W2 H2.
Proof.
  unfold shape. intros [= HWr HWc] [= HHr HHc] HW HH. unfold residual_mean.
  destruct (nrows V * ncols V =? 0)%nat; [reflexivity|]. do 2 f_equal.
  apply sum_upto_ext; intros r Hr. apply sum_upto_ext; intros c Hc.
  rewrite (prod_entry_ext W1 H1 W2 H2 r c HW HH) by lia. reflexivity.
Qed.

(** A pass from a stationary point leaves the entries of both factors as
    they are. *)
Lemma stationary_pass (Mat : ndarray) (eta lamda epsilon : R) (d : nat)
    (st st' : sgd_state) (b : bool) :
  shaped Mat d st -> stationary Mat lamda (W st) (H st) ->
  sgd_body Mat eta lamda epsilon st = Some (st', b) ->
  same_entries (W st') (W st) /\ same_entries (H st') (H st) /\
  stationary Mat lamda (W st') (H st').
Proof.
  intros Hsh [HgW HgH] Hb.
  destruct (sgd_body_spec Mat eta lamda epsilon st d Hsh)
    as (st1 & b1 & Hb1 & Hsh' & HWi & HHi).
  rewrite Hb in Hb1. injection Hb1 as <- <-.
  destruct Hsh as [HW HH]. destruct Hsh' as [HW' HH'].
  assert (HsW : same_entries (W st') (W st)).
  { split; [congruence|]. intros r c Hr Hc.
    unfold shape in HW, HW'. injection HW as HWr HWc. injection HW' as HWr' HWc'.
    rewrite HWi, HgW by lia. lra. }
  assert (HsH : same_entries (H st') (H st)).
  { split; [congruence|]. intros r c Hr Hc.
    unfold shape in HH, HH'. injection HH as HHr HHc. injection HH' as HHr' HHc'.
    rewrite HHi, HgH by lia. lra. }
  split; [exact HsW|]. split; [exact HsH|].
  destruct (grad_entries_ext Mat (W st') (H st') (W st) (H st) lamda d HW' HH' HsW HsH)
    as [HeW HeH].
  unfold shape in HW, HH, HW', HH'.
  injection HW as HWr HWc. injection HW' as HWr' HWc'.
  injection HH as HHr HHc. injection HH' as HHr' HHc'.
  split; intros r c Hr Hc.
  - rewrite HeW by lia. apply HgW; lia.
  - rewrite HeH by lia. apply HgH; lia.
Qed.

(** From a stationary point, on a Mat with entries and with a positive
    epsilon, the loop returns at its first or second pass. *)
Lemma stationary_loop (Mat : ndarray) (eta lamda epsilon : R) (d : nat)
    (st0 : sgd_state) (fuel : nat) :
  shaped Mat d st0 -> stationary Mat lamda (W st0) (H st0) ->
  (0 < nrows Mat * ncols Mat)%nat -> 0 < epsilon ->
  exists st,
    sgd_loop Mat eta lamda epsilon (S (S fuel)) st0 = Returned st /\
    (i st <= i st0 + 2)%nat /\
    same_entries (W st) (W st0) /\ same_entries (H st) (H st0).
Proof.
  intros Hsh Hst Hne Heps.
  destruct (sgd_body_closed Mat eta lamda epsilon st0 d Hsh)
    as (st1 & _ & Hb1 & Hsh1 & _ & _ & HE1 & Hi1 & _).
  destruct (stationary_pass Mat eta lamda epsilon d st0 st1 _ Hsh Hst Hb1)
    as (HW1 & HH1 & Hst1).
  cbn [sgd_loop]. rewrite Hb1.
  destruct (f_lt (f_abs (f_sub (Error2 st0) (Error2 st1))) epsilon).
  - exists st1. split; [reflexivity|]. split; [lia|]. split; assumption.
  - destruct (sgd_body_closed Mat eta lamda epsilon st1 d Hsh1)
      as (st2 & _ & Hb2 & Hsh2 & _ & _ & HE2 & Hi2 & _).
    destruct (stationary_pass Mat eta lamda epsilon d st1 st2 _ Hsh1 Hst1 Hb2)
      as (HW2 & HH2 & _).
    rewrite Hb2.
    assert (Htest : f_lt (f_abs (f_sub (Error2 st1) (Error2 st2))) epsilon = true).
    { rewrite HE2, HE1.
      rewrite (residual_mean_ext Mat (W st2) (H st2) (W st1) (H st1) d
                 (proj1 Hsh2) (proj2 Hsh2) HW2 HH2).
      unfold residual_mean.
      destruct (Nat.eqb_spec (nrows Mat * ncols Mat) 0) as [E|_]; [lia|].
      simpl. apply Rltb_true. rewrite Rminus_diag, Rabs_R0. exact Heps. }
    rewrite Htest. exists st2. split; [reflexivity|]. split; [lia|].
    split; eapply same_entries_trans; eassumption.
Qed.

(** X7: when both gradients vanish at the initial factors, Mat has
    entries and epsilon is positive, [sgd] returns after one or two
    passes, and the returned W and H have the entries of the initial
    factors. *)
Theorem stationary_start_returns_within_two_passes
    (Mat : ndarray) (num_topics : nat) (eta lamda epsilon : R) (g : rng) (fuel : nat) :
  stationary Mat lamda (W (init_state Mat num_topics g)) (H (init_state Mat num_topics g)) ->
  (0 < nrows Mat * ncols Mat)%nat -> 0 < epsilon ->
  exists res,
    sgd (S (S fuel)) Mat num_topics eta lamda epsilon g = Returned res /\
    (result_i res <= 2)%nat /\
    same_entries (result_W res) (W (init_state Mat num_topics g)) /\
    same_entries (result_H res) (H (init_state Mat num_topics g)).
Proof.
  intros Hst Hne Heps.
  destruct (stationary_loop Mat eta lamda epsilon num_topics _ fuel
              (init_state_shaped Mat num_topics g) Hst Hne Heps)
    as (st & Hloop & Hi & HW & HH).
  exists (result_of st). unfold sgd. rewrite Hloop.
  split; [reflexivity|]. cbn in Hi |- *. auto.
Qed.

Lemma stationary_start_returns_within_two_passes_witness :
  exists res,
    sgd 2 (row2 0 2) 0 eta_default lamda_default epsilon_default (fun _ => 1) = Returned res /\
    (result_i res <= 2)%nat.
Proof.
  destruct (stationary_start_returns_within_two_passes (row2 0 2) 0 eta_default
              lamda_default epsilon_default (fun _ => 1) 0)
    as (res & Hres & Hi & _).
  - split; intros r c Hr Hc; simpl in Hr, Hc; lia.
  - simpl. lia.
  - unfold epsilon_default. lra.
  - exists res. auto.
Defined.

Lemma sum_upto_zero (n : nat) (f : nat -> R) :
  (forall k, (k < n)%nat -> f k = 0) -> sum_upto n f = 0.
Proof.
  intros Hf. induction n as [|n IH]; simpl; [reflexivity|].
  rewrite IH, Hf by (intros; try apply Hf; lia). lra.
Qed.

(** X8: with [num_topics = 0], on a Mat with entries and with a positive
    epsilon, [sgd] returns after one or two passes; W is m-by-0, H is
    0-by-n, and the returned error is the absolute mean of Mat itself. *)
Theorem zero_topics_returns_within_two_passes
    (Mat : ndarray) (eta lamda epsilon : R) (g : rng) (fuel : nat) :
  (0 < nrows Mat * ncols Mat)%nat -> 0 < epsilon ->
  exists res,
    sgd (S (S fuel)) Mat 0 eta lamda epsilon g = Returned res /\
    (result_i res <= 2)%nat /\
    shape (result_W res) = (nrows Mat, 0%nat) /\
    shape (result_H res) = (0%nat, ncols Mat) /\
    result_Error res = f_abs (np_mean Mat).
Proof.
  intros Hne Heps.
  destruct (stationary_loop Mat eta lamda epsilon 0 _ fuel
              (init_state_shaped Mat 0 g)) as (st & Hloop & Hi & [HW _] & [HH _]);
    [split; intros r c Hr Hc; simpl in Hr, Hc; lia|exact Hne|exact Heps|].
  assert (Hres : sgd (S (S fuel)) Mat 0 eta lamda epsilon g = Returned (result_of st))
    by (unfold sgd; now rewrite Hloop).
  exists (result_of st). split; [exact Hres|].
  destruct (returned_error _ _ _ _ _ _ _ _ Hres) as (m & Hm & HE & _).
  cbn in Hi, Hm, HE |- *. split; [lia|]. split; [exact HW|]. split; [exact HH|].
  rewrite HE. unfold np_mean, np_sum. unfold residual_mean in Hm.
  destruct (nrows Mat * ncols Mat =? 0)%nat; [discriminate|].
  injection Hm as <-. simpl. do 3 f_equal.
  apply sum_upto_ext; intros r _. apply sum_upto_ext; intros c _.
  unfold prod_entry. unfold shape in HW. injection HW as _ HWc.
  cbn in HWc. rewrite HWc. simpl. lra.
Qed.

Lemma zero_topics_returns_within_two_passes_witness :
  exists res,
    sgd 2 (row2 0 2) 0 eta_default lamda_default epsilon_default (fun _ => 1) = Returned res /\
    result_Error res = f_abs (np_mean (row2 0 2)).
Proof.
  destruct (zero_topics_returns_within_two_passes (row2 0 2) eta_default
              lamda_default epsilon_default (fun _ => 1) 0)
    as (res & Hres & _ & _ & _ & HE).
  - simpl. lia.
  - unfold epsilon_default. lra.
  - exists res. auto.
Defined.

(** X9: all-zero factors are a fixed point of the update for every Mat,
    eta and lamda: when the initial W and H are zero, on a Mat with
    entries and with a positive epsilon, [sgd] returns after one or two
    passes with W and H still zero. *)
Theorem zero_factors_are_never_updated
    (Mat : ndarray) (num_topics : nat) (eta lamda epsilon : R) (g : rng) (fuel : nat) :
  (forall r c, item (W (init_state Mat num_topics g)) r c = 0) ->
  (forall r c, item (H (init_state Mat num_topics g)) r c = 0) ->
  (0 < nrows Mat * ncols Mat)%nat -> 0 < epsilon ->
  exists res,
    sgd (S (S fuel)) Mat num_topics eta lamda epsilon g = Returned res /\
    (result_i res <= 2)%nat /\
    (forall r c, (r < nrows Mat)%nat -> (c < num_topics)%nat -> item (result_W res) r c = 0) /\
    (forall r c, (r < num_topics)%nat -> (c < ncols Mat)%nat -> item (result_H res) r c = 0).
Proof.
  intros HW0 HH0 Hne Heps.
  destruct (stationary_loop Mat eta lamda epsilon num_topics _ fuel
              (init_state_shaped Mat num_topics g))
    as (st & Hloop & Hi & [HWs HWe] & [HHs HHe]); [|exact Hne|exact Heps|].
  { split; intros r c _ _.
    - unfold grad_w_entry. rewrite HW0, sum_upto_zero; [lra|].
      intros k _. rewrite HH0. lra.
    - unfold grad_h_entry. rewrite HH0, sum_upto_zero; [lra|].
      intros k _. rewrite HW0. lra. }
  exists (result_of st). unfold sgd. rewrite Hloop. split; [reflexivity|].
  cbn in Hi |- *. split; [lia|].
  unfold shape in HWs, HHs. injection HWs as HWr HWc. injection HHs as HHr HHc.
  cbn in HWr, HWc, HHr, HHc.
  split; intros r c Hr Hc.
  - rewrite HWe by lia. apply HW0.
  - rewrite HHe by lia. apply HH0.
Qed.

Lemma zero_factors_are_never_updated_witness :
  exists res,
    sgd 2 (row2 0 2) 1 eta_default lamda_default epsilon_default (fun _ => 0) = Returned res /\
    item (result_W res) 0 0 = 0.
Proof.
  assert (Hz : Rabs (0 + 0.01 * 0) = 0)
    by (replace (0 + 0.01 * 0) with 0 by lra; apply Rabs_R0).
  destruct (zero_factors_are_never_updated (row2 0 2) 1 eta_default
              lamda_default epsilon_default (fun _ => 0) 0)
    as (res & Hres & _ & HW & _).
  - intros r c. exact Hz.
  - intros r c. exact Hz.
  - simpl. lia.
  - unfold epsilon_default. lra.
  - exists res. split; [exact Hres|]. apply HW; simpl; lia.
Defined.

(** ** More on [lossfunc] and [grads] *)

Lemma sum_upto_eq_0 (n : nat) (f : nat -> R) :
  (forall k, 0 <= f k) ->
  sum_upto n f = 0 <-> forall k, (k < n)%nat -> f k = 0.
Proof.
  intros Hf. split; [|apply sum_upto_zero].
  induction n as [|n IH]; intros Hsum k Hk; [lia|].
  simpl in Hsum.
  pose proof (sum_upto_nonneg n f Hf) as Hn. pose proof (Hf n) as Hfn.
  destruct (Nat.eq_dec k n) as [->|Hne]; [lra|].
  apply IH; [lra|lia].
Qed.

Lemma sumsq_eq_0 (A : ndarray) :
  sumsq A = 0 <->
  forall r c, (r < nrows A)%nat -> (c < ncols A)%nat -> item A r c = 0.
Proof.
  unfold sumsq. rewrite sum_upto_eq_0
    by (intros r; apply sum_upto_nonneg; intros c; nra).
  split.
  - intros Hall r c Hr Hc. specialize (Hall r Hr).
    rewrite sum_upto_eq_0 in Hall by (intros; nra).
    specialize (Hall c Hc). nra.
  - intros Hall r Hr. apply sum_upto_zero. intros c Hc. rewrite Hall by assumption. lra.
Qed.

Lemma sq_nonneg (x : R) : 0 <= x * x.
Proof. nra. Qed.

Lemma residual_sumsq_nonneg (V W H : ndarray) : 0 <= residual_sumsq V W H.
Proof.
  unfold residual_sumsq. apply sum_upto_nonneg; intros r.
  apply sum_upto_nonneg; intros c. apply sq_nonneg.
Qed.

Lemma residual_sumsq_eq_0 (V W H : ndarray) :
  residual_sumsq V W H = 0 <->
  forall r c, (r < nrows V)%nat -> (c < ncols V)%nat -> item V r c = prod_entry W H r c.
Proof.
  unfold residual_sumsq. rewrite sum_upto_eq_0
    by (intros r; apply sum_upto_nonneg; intros c; apply sq_nonneg).
  split.
  - intros Hall r c Hr Hc. specialize (Hall r Hr).
    rewrite sum_upto_eq_0 in Hall by (intros; apply sq_nonneg).
    specialize (Hall c Hc). apply Rmult_integral in Hall. lra.
  - intros Hall r Hr. apply sum_upto_zero. intros c Hc. rewrite Hall by assumption. lra.
Qed.

(** X10: for lamda >= 0 and conformable shapes the value of [lossfunc]
    is nonnegative, and it is 0 exactly when WH reproduces every entry of
    Mat and, unless lamda = 0, W is zero; the entries of H do not enter. *)
Theorem lossfunc_nonnegative_and_zero_iff
    (V W H : ndarray) (lamda : R) (d : nat) :
  shape W = (nrows V, d) -> shape H = (d, ncols V) -> 0 <= lamda ->
  exists l,
    lossfunc V W H lamda = Some l /\ 0 <= l /\
    (l = 0 <->
     (forall r c, (r < nrows V)%nat -> (c < ncols V)%nat ->
        item V r c = prod_entry W H r c) /\
     (lamda = 0 \/
      forall r c, (r < nrows W)%nat -> (c < ncols W)%nat -> item W r c = 0)).
Proof.
  intros HW HH Hlam. eexists. split; [exact (lossfunc_closed V W H lamda d HW HH)|].
  pose proof (residual_sumsq_nonneg V W H) as HS.
  pose proof (sumsq_nonneg W) as HQ.
  rewrite <- residual_sumsq_eq_0, <- sumsq_eq_0.
  split; [nra|]. split.
  - intros Hl.
    assert (HS0 : residual_sumsq V W H = 0) by nra.
    split; [exact HS0|].
    destruct (Req_dec lamda 0) as [->|Hne]; [now left|right]. rewrite HS0 in Hl. nra.
  - intros [HS0 [->|HQ0]]; rewrite HS0; [lra|rewrite HQ0; lra].
Qed.

Lemma lossfunc_nonnegative_and_zero_iff_witness :
  exists l, lossfunc (full 1 1 1) (full 1 1 1) (full 1 1 2) 1 = Some l /\ 0 <= l.
Proof.
  destruct (lossfunc_nonnegative_and_zero_iff (full 1 1 1) (full 1 1 1) (full 1 1 2) 1 1)
    as (l & Hl & Hpos & _); [reflexivity|reflexivity|lra|].
  exists l. auto.
Defined.

(** X11: with lamda = 0 [lossfunc] and the objective agree on every
    input: both raise, or both return the same value. *)
Theorem lossfunc_is_objective_F_without_regularization (V W H : ndarray) :
  lossfunc V W H 0 = objective_F V W H 0.
Proof.
  rewrite lossfunc_unfold. unfold objective_F.
  destruct (matmul W H) as [P|]; [|reflexivity]. cbn [mbind option_bind].
  destruct (np_sub V P) as [D|]; [|reflexivity]. cbn [mbind option_bind].
  f_equal. lra.
Qed.

(** X12: [grads] commutes with transposing the problem: for conformable
    shapes, the gradients of (V^T, H^T, W^T) are the transposes of the
    gradients in H and in W of (V, W, H). *)
Theorem grads_of_transposed_problem
    (V W H : ndarray) (lamda : R) (d : nat) :
  shape W = (nrows V, d) -> shape H = (d, ncols V) ->
  exists gw gh gw' gh',
    grads V W H lamda = Some (gw, gh) /\
    grads (transpose V) (transpose H) (transpose W) lamda = Some (gw', gh') /\
    shape gw' = shape (transpose gh) /\ shape gh' = shape (transpose gw) /\
    (forall r c, item gw' r c = item gh c r) /\
    (forall r c, item gh' r c = item gw c r).
Proof.
  intros HW HH.
  destruct (grads_spec V lamda W H d HW HH) as (gw & gh & Hg & Hsw & Hsh & Hgw & Hgh).
  unfold shape in HW, HH. injection HW as HWr HWc. injection HH as HHr HHc.
  destruct (grads_spec (transpose V) lamda (transpose H) (transpose W) d)
    as (gw' & gh' & Hg' & Hsw' & Hsh' & Hgw' & Hgh');
    [unfold shape; simpl; congruence..|].
  exists gw, gh, gw', gh'. split; [exact Hg|]. split; [exact Hg'|].
  unfold shape in Hsw, Hsh, Hsw', Hsh' |- *. simpl in Hsw', Hsh' |- *.
  injection Hsw as Hswr Hswc. injection Hsh as Hshr Hshc.
  injection Hsw' as Hswr' Hswc'. injection Hsh' as Hshr' Hshc'.
  split; [f_equal; congruence|]. split; [f_equal; congruence|].
  assert (Hprod : forall r k,
             prod_entry (transpose H) (transpose W) r k = prod_entry W H k r).
  { intros r k. unfold prod_entry. simpl. rewrite HHr, HWc.
    apply sum_upto_ext; intros l _. ring. }
  split; intros r c.
  - rewrite Hgw', Hgh. unfold grad_w_entry, grad_h_entry. simpl. f_equal.
    apply sum_upto_ext; intros k _. rewrite Hprod. ring.
  - rewrite Hgh', Hgw. unfold grad_h_entry, grad_w_entry. simpl. f_equal.
    apply sum_upto_ext; intros k _. rewrite Hprod. ring.
Qed.

Lemma grads_of_transposed_problem_witness :
  exists gw gh gw' gh',
    grads (row2 0 2) (full 1 1 1) (full 1 2 1) 0 = Some (gw, gh) /\
    grads (transpose (row2 0 2)) (transpose (full 1 2 1)) (transpose (full 1 1 1)) 0
      = Some (gw', gh') /\
    item gw' 1 0 = item gh 0 1.
Proof.
  destruct (grads_of_transposed_problem (row2 0 2) (full 1 1 1) (full 1 2 1) 0 1)
    as (gw & gh & gw' & gh' & Hg & Hg' & _ & _ & HE & _); [reflexivity..|].
  exists gw, gh, gw', gh'. auto.
Defined.

(** ** When [lossfunc] and [grads] raise *)

Lemma broadcast_dim_Some (a b c : nat) :
  broadcast_dim a b = Some c <->
  (a = b /\ c = a) \/ (a <> b /\ a = 1%nat /\ c = b) \/
  (a <> b /\ a <> 1%nat /\ b = 1%nat /\ c = a).
Proof.
  unfold broadcast_dim.
  destruct (Nat.eqb_spec a b);
    [|destruct (Nat.eqb_spec a 1%nat); [|destruct (Nat.eqb_spec b 1%nat)]];
    split; intros Hx; try (injection Hx as <-); try discriminate; try lia;
    f_equal; lia.
Qed.

Lemma broadcast_dim_is_Some (a b : nat) :
  is_Some (broadcast_dim a b) <-> broadcastable a b.
Proof.
  unfold broadcastable, is_Some. split.
  - intros [c Hc]. apply broadcast_dim_Some in Hc. lia.
  - intros Hb. destruct (Nat.eq_dec a b) as [->|Hne].
    + exists b. apply broadcast_dim_Some. lia.
    + destruct (Nat.eq_dec a 1%nat) as [->|Hne1].
      * exists b. apply broadcast_dim_Some. lia.
      * exists a. apply broadcast_dim_Some. lia.
Qed.

Lemma elementwise_is_Some (op : R -> R -> R) (A B : ndarray) :
  is_Some (elementwise op A B) <->
  broadcastable (nrows A) (nrows B) /\ broadcastable (ncols A) (ncols B).
Proof.
  rewrite <- !broadcast_dim_is_Some. unfold elementwise.
  destruct (broadcast_dim (nrows A) (nrows B)) as [r|]; cbn [mbind option_bind].
  - destruct (broadcast_dim (ncols A) (ncols B)) as [c|]; cbn [mbind option_bind].
    + split; eauto.
    + split; [intros [? ?]; discriminate|intros [_ [? ?]]; discriminate].
  - split; [intros [? ?]; discriminate|intros [[? ?] _]; discriminate].
Qed.

Lemma elementwise_shape (op : R -> R -> R) (A B C : ndarray) :
  elementwise op A B = Some C ->
  broadcast_dim (nrows A) (nrows B) = Some (nrows C) /\
  broadcast_dim (ncols A) (ncols B) = Some (ncols C).
Proof.
  unfold elementwise.
  destruct (broadcast_dim (nrows A) (nrows B)) as [r|]; [|discriminate].
  destruct (broadcast_dim (ncols A) (ncols B)) as [c|]; [|discriminate].
  cbn [mbind option_bind]. intros [= <-]. auto.
Qed.

(** X13: [lossfunc] raises exactly when the inner dimensions of W and H
    differ or Mat cannot be broadcast against WH.  It does not require Mat
    to have the shape of WH: a dimension of length 1, on either side, is
    stretched. *)
Theorem lossfunc_returns_iff (Mat W H : ndarray) (lamda : R) :
  is_Some (lossfunc Mat W H lamda) <->
  ncols W = nrows H /\
  broadcastable (nrows Mat) (nrows W) /\
  broadcastable (ncols Mat) (ncols H).
Proof.
  rewrite lossfunc_unfold. unfold matmul.
  destruct (Nat.eqb_spec (ncols W) (nrows H)) as [Hin|Hin]; cbn [mbind option_bind].
  - pose proof (elementwise_is_Some Rminus Mat
                  {| nrows := nrows W; ncols := ncols H;
                     item := fun r c => sum_upto (ncols W)
                                          (fun k => item W r k * item H k c) |}) as Hiff.
    cbn [nrows ncols] in Hiff. unfold np_sub.
    destruct (elementwise Rminus Mat _) as [D|]; cbn [mbind option_bind].
    + split; [intros _|eauto]. split; [exact Hin|]. apply Hiff. eauto.
    + split; [intros [? ?]; discriminate|].
      intros (_ & Hr & Hc). destruct (proj2 Hiff (conj Hr Hc)). discriminate.
  - split; [intros [? ?]; discriminate|]. intros [Heq _]. contradiction.
Qed.

(** Splits on every length comparison met while the shapes are checked. *)
Ltac split_shapes :=
  repeat (match goal with
          | |- context [Nat.eqb ?a ?b] => destruct (Nat.eqb_spec a b)
          end;
          cbn [mbind option_bind nrows ncols transpose scale]).

(** X14: [grads] raises exactly when the inner dimensions of W and H
    differ or Mat has neither the shape of WH nor, in the dimension where
    it differs, length 1 (a single row or column of Mat is broadcast); when
    it returns, the two gradients have the shapes of W and of H. *)
Theorem grads_returns_iff (Mat W H : ndarray) (lamda : R) :
  (is_Some (grads Mat W H lamda) <->
   ncols W = nrows H /\
   (nrows Mat = nrows W \/ nrows Mat = 1%nat) /\
   (ncols Mat = ncols H \/ ncols Mat = 1%nat)) /\
  (forall gw gh,
      grads Mat W H lamda = Some (gw, gh) ->
      shape gw = shape W /\ shape gh = shape H).
Proof.
  unfold grads, matmul, np_sub, np_add, elementwise, broadcast_dim, shape.
  cbn [mbind option_bind nrows ncols transpose scale].
  split_shapes;
    (split;
     [ split;
       [ intros [x Hx]; first [discriminate Hx | lia]
       | intros Hc; first [eexists; reflexivity | exfalso; lia] ]
     | intros gw gh Hg; first [discriminate Hg | injection Hg as <- <-; cbn; split; f_equal; lia] ]).
Qed.

(** ** Aliasing of the returned arrays *)

Lemma alloc_inv (a : ndarray) (s s' : Heap.store) (l : Heap.loc) :
  Heap.alloc a s = (l, s') -> s ⊆ s' /\ (l ∉ dom s) /\ (l ∈ dom s').
Proof.
  intros Ha. apply alloc_spec in Ha as (Hsub & Hfresh & Hl).
  split; [exact Hsub|]. split; [exact Hfresh|]. apply elem_of_dom. eauto.
Qed.

Lemma call1_inv (f : ndarray -> ndarray) (l l' : Heap.loc) (s s' : Heap.store) :
  Heap.call1 f l s = Some (l', s') -> s ⊆ s' /\ (l' ∉ dom s) /\ (l' ∈ dom s').
Proof.
  unfold Heap.call1. destruct (s !! l) as [a|]; [|discriminate].
  cbn [mbind option_bind]. intros Ha. apply (alloc_inv (f a)). congruence.
Qed.

Lemma call2_inv (f : ndarray -> ndarray -> option ndarray) (l1 l2 l' : Heap.loc)
    (s s' : Heap.store) :
  Heap.call2 f l1 l2 s = Some (l', s') -> s ⊆ s' /\ (l' ∉ dom s) /\ (l' ∈ dom s').
Proof.
  unfold Heap.call2. destruct (s !! l1) as [a|]; [|discriminate].
  destruct (s !! l2) as [b|]; [|discriminate]. cbn [mbind option_bind].
  destruct (f a b) as [c|]; [|discriminate]. cbn [mbind option_bind].
  intros Ha. apply (alloc_inv c). congruence.
Qed.

(** Takes the first call of a chain apart. *)
Ltac inv_bind Hx :=
  match type of Hx with
  | mbind _ ?m = Some _ =>
      let E := fresh "E" in
      destruct m as [?|] eqn:E; cbn [mbind option_bind] in Hx; [|discriminate Hx];
      repeat match goal with p : (_ * _)%type |- _ => destruct p end;
      try (apply call2_inv in E as (? & ? & ?));
      try (apply call1_inv in E as (? & ? & ?))
  end.

Lemma lossfunc_frame (lM lW lH : Heap.loc) (lamda : R) (s s' : Heap.store) (l : R) :
  Heap.lossfunc lM lW lH lamda s = Some (l, s') -> s ⊆ s'.
Proof.
  unfold Heap.lossfunc. intros Hx. do 6 inv_bind Hx.
  injection Hx as _ <-. chain_subseteq.
Qed.

Lemma grads_frame (lM lW lH : Heap.loc) (lamda : R) (s s' : Heap.store)
    (lgw lgh : Heap.loc) :
  Heap.grads lM lW lH lamda s = Some (lgw, lgh, s') -> s ⊆ s'.
Proof.
  unfold Heap.grads. intros Hx. do 12 inv_bind Hx.
  injection Hx as _ _ <-. chain_subseteq.
Qed.

Lemma dom_weaken (s s' : Heap.store) (l : Heap.loc) : s ⊆ s' -> l ∈ dom s -> l ∈ dom s'.
Proof. intros Hsub. now apply subseteq_dom. Qed.

Lemma separate_step (lM : Heap.loc) (eta lamda epsilon : R) (s0 s s' : Heap.store)
    (hst hst' : Heap.sgd_state) (b : bool) :
  separate s0 s hst ->
  Heap.sgd_body lM eta lamda epsilon hst s = Some (hst', b, s') ->
  separate s0 s' hst'.
Proof.
  intros (Hs0 & HWd & HHd & HW0 & HH0 & Hne & Hhist) Hx.
  unfold Heap.sgd_body in Hx.
  inv_bind Hx. apply lossfunc_frame in E.
  inv_bind Hx. apply grads_frame in E0.
  do 7 inv_bind Hx. injection Hx as <- <- <-. unfold separate. cbn.
  match goal with
  | HW' : ?lW' ∉ dom ?sa, HH' : ?lH' ∉ dom ?sb, HWi : ?lW' ∈ dom ?sc, HHi : ?lH' ∈ dom ?sd
    |- _ ⊆ ?sf /\ (?lW' ∈ _) /\ (?lH' ∈ _) /\ _ =>
      assert (Hsf : s ⊆ sf) by chain_subseteq;
      assert (HWf : lW' ∈ dom sf)
        by (apply (dom_weaken sc sf); [chain_subseteq|exact HWi]);
      assert (HHf : lH' ∈ dom sf)
        by (apply (dom_weaken sd sf); [chain_subseteq|exact HHi]);
      assert (HWs : lW' ∉ dom s)
        by (apply (fresh_weaken s sa); [chain_subseteq|exact HW']);
      assert (HHs : lH' ∉ dom s)
        by (apply (fresh_weaken s sb); [chain_subseteq|exact HH']);
      assert (HWH : lW' <> lH')
        by (intros Heq; apply HH'; rewrite <- Heq;
            apply (dom_weaken sc sb); [chain_subseteq|exact HWi])
  end.
  split; [chain_subseteq|].
  split; [exact HWf|]. split; [exact HHf|].
  split; [apply (fresh_weaken s0 s); assumption|].
  split; [apply (fresh_weaken s0 s); assumption|].
  split; [exact HWH|].
  intros lh Hlh.
  assert (Hold : (lh ∈ dom s) /\ (lh ∉ dom s0)).
  { destruct Hlh as [Hlh|Hlh]; apply elem_of_app in Hlh as [Hlh|Hlh].
    - destruct (Hhist lh (or_introl Hlh)) as (? & ? & _). auto.
    - apply list_elem_of_singleton in Hlh as ->. auto.
    - destruct (Hhist lh (or_intror Hlh)) as (? & ? & _). auto.
    - apply list_elem_of_singleton in Hlh as ->. auto. }
  destruct Hold as [Hld Hl0].
  split; [exact (dom_weaken _ _ _ Hsf Hld)|]. split; [exact Hl0|].
  split; intros ->; contradiction.
Qed.

Lemma separate_loop (lM : Heap.loc) (eta lamda epsilon : R) (s0 : Heap.store) (fuel : nat) :
  forall (s s' : Heap.store) (hst hst' : Heap.sgd_state),
    separate s0 s hst ->
    Heap.sgd_loop lM eta lamda epsilon fuel hst s = Returned (hst', s') ->
    separate s0 s' hst'.
Proof.
  induction fuel as [|fuel IH]; intros s s' hst hst' Hsep Hloop; simpl in Hloop;
    [discriminate|].
  destruct (Heap.sgd_body lM eta lamda epsilon hst s) as [[[hst1 b] s1]|] eqn:Hb;
    [|discriminate].
  pose proof (separate_step lM eta lamda epsilon s0 s s1 hst hst1 b Hsep Hb) as Hsep1.
  destruct b.
  - injection Hloop as <- <-. exact Hsep1.
  - exact (IH s1 s' hst1 hst' Hsep1 Hloop).
Qed.

Lemma separate_init (lM : Heap.loc) (num_topics : nat) (g : rng) (s s1 : Heap.store)
    (hst0 : Heap.sgd_state) :
  Heap.init_state lM num_topics g s = Some (hst0, s1) ->
  (lM ∈ dom s) /\ separate s s1 hst0.
Proof.
  unfold Heap.init_state, Heap.read. intros Hx.
  destruct (s !! lM) as [M|] eqn:HM; [|discriminate].
  split; [apply elem_of_dom; eauto|].
  cbn [fmap option_fmap option_map mbind option_bind shape random_normal] in Hx.
  match type of Hx with
  | context [Heap.alloc ?a s] => destruct (Heap.alloc a s) as [lRW sa] eqn:Ha
  end.
  apply alloc_inv in Ha as (Hsa & _ & _).
  destruct (Heap.call1 np_abs lRW sa) as [[lW0 sb]|] eqn:Hb; [|discriminate].
  apply call1_inv in Hb as (Hsb & HWf & HWd). cbn [mbind option_bind] in Hx.
  match type of Hx with
  | context [Heap.alloc ?a sb] => destruct (Heap.alloc a sb) as [lRH sc] eqn:Hc
  end.
  apply alloc_inv in Hc as (Hsc & _ & _).
  destruct (Heap.call1 np_abs lRH sc) as [[lH0 sd]|] eqn:Hd; [|discriminate].
  apply call1_inv in Hd as (Hsd & HHf & HHd). cbn [mbind option_bind] in Hx.
  injection Hx as <- <-. unfold separate. cbn.
  split; [chain_subseteq|].
  split; [apply (dom_weaken sb sd); [chain_subseteq|exact HWd]|].
  split; [exact HHd|].
  split; [apply (fresh_weaken s sa); [chain_subseteq|exact HWf]|].
  split; [apply (fresh_weaken s sc); [chain_subseteq|exact HHf]|].
  split.
  - intros Heq. apply HHf. rewrite <- Heq.
    apply (dom_weaken sb sc); [chain_subseteq|exact HWd].
  - intros l [Hl|Hl]; apply elem_of_nil in Hl; contradiction.
Qed.

(** X15: over the object store, the W and the H that [sgd] returns are
    two different objects, and no entry of the returned [w_history] or
    [h_history] is one of them or is Mat: every entry is an object made
    during the call, and the last rebinding of W and H made new ones. *)
Theorem returned_factors_alias_nothing
    (fuel : nat) (lMat : Heap.loc) (num_topics : nat) (eta lamda epsilon : R) (g : rng)
    (s s' : Heap.store) (hres : Heap.sgd_result) :
  Heap.sgd fuel lMat num_topics eta lamda epsilon g s = Returned (hres, s') ->
  Heap.result_W hres <> Heap.result_H hres /\
  forall l,
    (l ∈ heap_result_w_history hres) \/ (l ∈ heap_result_h_history hres) ->
    l <> lMat /\ l <> Heap.result_W hres /\ l <> Heap.result_H hres /\ (l ∈ dom s').
Proof.
  unfold Heap.sgd. intros Hret.
  destruct (Heap.init_state lMat num_topics g s) as [[hst0 s1]|] eqn:Hinit; [|discriminate].
  apply separate_init in Hinit as [HMd Hsep0].
  destruct (Heap.sgd_loop lMat eta lamda epsilon fuel hst0 s1) as [[hst' s2]| |] eqn:Hloop;
    try discriminate.
  injection Hret as <- <-.
  pose proof (separate_loop lMat eta lamda epsilon s fuel s1 s2 hst0 hst' Hsep0 Hloop)
    as (_ & _ & _ & _ & _ & Hne & Hhist).
  cbn. split; [exact Hne|]. intros l Hl.
  destruct (Hhist l Hl) as (Hld & Hl0 & HlW & HlH).
  split; [intros ->; contradiction|]. auto.
Qed.

Lemma returned_factors_alias_nothing_witness :
  exists hres s',
    Heap.sgd 1 1%positive 1 (1 / 2) 0 epsilon_default (fun _ => 100)
      {[ 1%positive := row2 0 2 ]} = Returned (hres, s') /\
    Heap.result_W hres <> Heap.result_H hres.
Proof.
  pose proof (sgd_refines 1%positive (row2 0 2) 1 (1 / 2) 0 epsilon_default
                (fun _ => 100) 1 {[ 1%positive := row2 0 2 ]}
                (lookup_singleton_eq _ _)) as X.
  destruct (cancelling_run epsilon_default 0 ltac:(unfold epsilon_default; lra))
    as (st' & Hres & _).
  rewrite Hres in X. destruct X as (hres & s' & Hret & _).
  exists hres, s'. split; [exact Hret|].
  exact (proj1 (returned_factors_alias_nothing _ _ _ _ _ _ _ _ _ _ Hret)).
Defined.

(** * [show_topics] *)

Lemma is_argsort_facts (t : list R) (p : list nat) :
  is_argsort t p ->
  length p = length t /\ NoDup p /\ forall x, x ∈ p <-> (x < length t)%nat.
Proof.
  intros [Hperm _]. split; [|split].
  - rewrite Hperm. apply length_seq.
  - rewrite Hperm. apply NoDup_seq.
  - intros x. rewrite Hperm, elem_of_seq. lia.
Qed.

(** X16: for a row t, the indices whose words [top_words] returns are
    min(8, len t) different indices of t, listed by non-increasing value,
    and no index left out has a larger value than one that is listed: the
    words are those of the 8 largest entries, largest first. *)
Theorem top_words_are_the_largest_entries
    (argsort : list R -> list nat) (vocab : list String.string) (t : list R)
    (ws : list String.string) :
  is_argsort t (argsort t) ->
  top_words argsort vocab t = Some ws ->
  exists sel,
    Forall2 (fun x w => vocab !! x = Some w) sel ws /\
    length sel = Nat.min 8 (length t) /\
    NoDup sel /\
    (forall x, x ∈ sel -> (x < length t)%nat) /\
    (forall i j x y, (i <= j)%nat -> sel !! i = Some x -> sel !! j = Some y ->
       default 0 (t !! y) <= default 0 (t !! x)) /\
    (forall x z, x ∈ sel -> (z < length t)%nat -> z ∉ sel ->
       default 0 (t !! z) <= default 0 (t !! x)).
Proof.
  intros Hsort Hws.
  destruct (is_argsort_facts t _ Hsort) as (Hlen & Hnd & Hin).
  destruct Hsort as [_ Hord].
  exists (top_indices argsort t). unfold top_words in Hws. apply mapM_Some in Hws.
  split; [exact Hws|]. unfold top_indices, num_top_words.
  split; [now rewrite length_take, length_reverse, Hlen|].
  split; [apply (sublist_NoDup _ (reverse (argsort t)));
          [now rewrite reverse_Permutation|apply sublist_take]|].
  split.
  { intros x Hx. apply elem_of_take in Hx as (i & Hi & _).
    apply Hin, elem_of_reverse, list_elem_of_lookup. eauto. }
  split.
  - intros i j x y Hij Hi Hj.
    apply lookup_take_Some in Hi as [Hi _]. apply lookup_take_Some in Hj as [Hj _].
    apply reverse_lookup_Some in Hi as [Hi Hil].
    apply reverse_lookup_Some in Hj as [Hj Hjl].
    assert (Hle : (length (argsort t) - S j <= length (argsort t) - S i)%nat) by lia.
    exact (Hord _ _ _ _ Hle Hj Hi).
  - intros x z Hx Hz Hnz.
    apply elem_of_take in Hx as (i & Hi & Hik).
    apply reverse_lookup_Some in Hi as [Hi Hil].
    apply Hin, list_elem_of_lookup in Hz as [q Hq].
    pose proof (lookup_lt_Some _ _ _ Hq) as Hql.
    destruct (Nat.le_gt_cases q (length (argsort t) - S i)) as [Hle|Hgt].
    + exact (Hord _ _ _ _ Hle Hq Hi).
    + exfalso. apply Hnz. apply elem_of_take.
      exists (length (argsort t) - S q)%nat. split; [|lia].
      apply reverse_lookup_Some. split; [|lia].
      replace (length (argsort t) - S (length (argsort t) - S q))%nat with q by lia.
      exact Hq.
Qed.

Lemma top_words_are_the_largest_entries_witness :
  exists sel,
    Forall2 (fun x w => ["a"; "b"; "c"]%string !! x = Some w) sel ["b"; "c"; "a"]%string /\
    length sel = 3%nat.
Proof.
  destruct (top_words_are_the_largest_entries (fun _ => [0; 2; 1]%nat)
              ["a"; "b"; "c"]%string [1; 3; 2] ["b"; "c"; "a"]%string)
    as (sel & Hsel & Hlen & _).
  - split; [simpl; apply perm_skip, perm_swap|].
    intros i j x y Hij Hi Hj.
    destruct i as [|[|[|i]]]; destruct j as [|[|[|j]]];
      try lia; cbn in Hi, Hj; try discriminate;
      injection Hi as <-; injection Hj as <-; cbn; lra.
  - reflexivity.
  - exists sel. auto.
Defined.

Lemma top_indices_in_range (argsort : list R -> list nat) (t : list R) :
  is_argsort t (argsort t) ->
  length (top_indices argsort t) = Nat.min 8 (length t) /\
  forall x, x ∈ top_indices argsort t -> (x < length t)%nat.
Proof.
  intros Hsort. destruct (is_argsort_facts t _ Hsort) as (Hlen & _ & Hin).
  unfold top_indices, num_top_words. split.
  - now rewrite length_take, length_reverse, Hlen.
  - intros x Hx. apply elem_of_take in Hx as (i & Hi & _).
    apply Hin, elem_of_reverse, list_elem_of_lookup. eauto.
Qed.

Lemma length_row (a : ndarray) (r : nat) : length (row a r) = ncols a.
Proof. unfold row. now rewrite length_fmap, length_seq. Qed.

(** X17: when [vocab] has a word for every column of [a],
    [show_topics(a)] raises nothing and returns one string per row of [a],
    each the words of min(8, number of columns) entries of that row joined
    by single spaces. *)
Theorem show_topics_returns_one_line_per_topic
    (argsort : list R -> list nat) (vocab : list String.string) (a : ndarray) :
  (forall r, (r < nrows a)%nat -> is_argsort (row a r) (argsort (row a r))) ->
  (ncols a <= length vocab)%nat ->
  exists out,
    show_topics argsort vocab a = Some out /\
    length out = nrows a /\
    Forall2 (fun t line =>
               exists ws, top_words argsort vocab t = Some ws /\
                          length ws = Nat.min 8 (ncols a) /\
                          line = String.concat " "%string ws)
            (rows a) out.
Proof.
  intros Hsort Hvocab.
  assert (Hrows : forall t, t ∈ rows a ->
            exists ws, top_words argsort vocab t = Some ws /\
                       length ws = Nat.min 8 (ncols a)).
  { intros t Ht. apply list_elem_of_fmap in Ht as (r & -> & Hr).
    apply elem_of_seq in Hr as [_ Hr]. simpl in Hr.
    destruct (top_indices_in_range argsort (row a r) (Hsort r Hr)) as [Hlen Hin].
    rewrite length_row in Hlen, Hin.
    destruct (mapM_is_Some_2 (fun x => vocab !! x) (top_indices argsort (row a r)))
      as [ws Hws].
    { apply Forall_forall. intros x Hx. apply lookup_lt_is_Some_2.
      specialize (Hin x Hx). lia. }
    exists ws. split; [exact Hws|].
    apply length_mapM in Hws. congruence. }
  destruct (mapM_is_Some_2 (top_words argsort vocab) (rows a)) as [tw Htw].
  { apply Forall_forall. intros t Ht. destruct (Hrows t Ht) as (ws & Hws & _).
    now exists ws. }
  exists (String.concat " "%string <$> tw). unfold show_topics. rewrite Htw.
  split; [reflexivity|]. split.
  - rewrite length_fmap. apply length_mapM in Htw. rewrite <- Htw.
    unfold rows. now rewrite length_fmap, length_seq.
  - apply mapM_Some in Htw.
    apply Forall2_fmap_r, Forall2_same_length_lookup_2;
      [now apply Forall2_length in Htw|].
    intros k t ws Ht Hws.
    assert (Hin : t ∈ rows a) by (apply list_elem_of_lookup; eauto).
    assert (Htop : top_words argsort vocab t = Some ws)
      by exact (Forall2_lookup_lr _ _ _ _ _ _ Htw Ht Hws).
    exists ws. split; [exact Htop|]. split; [|reflexivity].
    destruct (Hrows t Hin) as (ws' & Hws' & Hlen).
    rewrite Htop in Hws'. injection Hws' as <-. exact Hlen.
Qed.

Lemma show_topics_returns_one_line_per_topic_witness :
  exists out,
    show_topics (fun _ => [0; 1]%nat) ["x"; "y"]%string (row2 1 2) = Some out /\
    length out = 1%nat.
Proof.
  destruct (show_topics_returns_one_line_per_topic (fun _ => [0; 1]%nat)
              ["x"; "y"]%string (row2 1 2)) as (out & Hout & Hlen & _).
  - intros r Hr. simpl in Hr. assert (r = 0%nat) as -> by lia.
    split; [reflexivity|].
    intros i j x y Hij Hi Hj.
    destruct i as [|[|i]]; destruct j as [|[|j]];
      try lia; cbn in Hi, Hj; try discriminate;
      injection Hi as <-; injection Hj as <-; cbn; lra.
  - simpl. lia.
  - exists out. auto.
Defined.

(** * [rmse] *)

Lemma foldl_Rplus (a : R) (l : list R) : foldl Rplus a l = a + foldl Rplus 0 l.
Proof.
  revert a. induction l as [|x l IH]; intros a; simpl; [lra|].
  rewrite (IH (a + x)), (IH (0 + x)). lra.
Qed.

Lemma py_sum_cons (x : R) (l : list R) : py_sum (x :: l) = x + py_sum l.
Proof. unfold py_sum. simpl. rewrite foldl_Rplus. lra. Qed.

Lemma py_sum_squares_nonneg (l : list R) : 0 <= py_sum ((fun xi => xi * xi) <$> l).
Proof.
  induction l as [|x l IH]; [unfold py_sum; simpl; lra|].
  rewrite fmap_cons, py_sum_cons. pose proof (sq_nonneg x). lra.
Qed.

Lemma py_sum_squares_eq_0 (l1 l2 : list R) :
  length l1 = length l2 ->
  py_sum ((fun xi => xi * xi) <$> zip_with Rminus l1 l2) = 0 <-> l1 = l2.
Proof.
  revert l2. induction l1 as [|a l1 IH]; intros [|b l2] Hlen; simpl in Hlen;
    try discriminate.
  - split; [reflexivity|]. intros _. reflexivity.
  - injection Hlen as Hlen. cbn [zip_with]. rewrite fmap_cons, py_sum_cons.
    pose proof (py_sum_squares_nonneg (zip_with Rminus l1 l2)) as Hpos.
    pose proof (sq_nonneg (a - b)) as Hsq.
    specialize (IH l2 Hlen). split.
    + intros Hsum.
      assert (Ha : (a - b) * (a - b) = 0) by lra.
      apply Rmult_integral in Ha.
      f_equal; [lra|]. apply IH. lra.
    + intros [= -> ->]. rewrite (proj2 IH eq_refl). lra.
Qed.

(** The value of [rmse] on a non-empty input. *)
Lemma rmse_value (n : nat) (true_ pred : vec R n) :
  rmse true_ pred =
    if (n =? 0)%nat then None
    else Some (py_sum ((fun xi => xi * xi)
                         <$> zip_with Rminus (vec_to_list true_) (vec_to_list pred))
               / INR n).
Proof.
  unfold rmse. rewrite vec_to_list_zip_with, length_zip_with, !length_vec_to_list.
  rewrite Nat.min_id. reflexivity.
Qed.

(** X18: [rmse] raises ZeroDivisionError on empty input; on any other
    input it returns a nonnegative number, which is 0 exactly when [pred]
    equals [true] entry by entry. *)
Theorem rmse_is_zero_iff_equal (n : nat) (true_ pred : vec R n) :
  (n = 0%nat -> rmse true_ pred = None) /\
  ((0 < n)%nat ->
   exists v, rmse true_ pred = Some v /\ 0 <= v /\ (v = 0 <-> true_ = pred)).
Proof.
  rewrite rmse_value. split.
  - intros ->. reflexivity.
  - intros Hn. destruct (Nat.eqb_spec n 0) as [->|_]; [lia|].
    eexists. split; [reflexivity|].
    pose proof (py_sum_squares_nonneg
                  (zip_with Rminus (vec_to_list true_) (vec_to_list pred))) as Hpos.
    assert (HINR : 0 < INR n) by (apply lt_0_INR; lia).
    pose proof (py_sum_squares_eq_0 (vec_to_list true_) (vec_to_list pred)
                  (vec_to_list_same_length _ _)) as Hiff.
    split.
    + apply Rmult_le_pos; [exact Hpos|]. apply Rlt_le, Rinv_0_lt_compat, HINR.
    + split.
      * intros Hv. apply vec_to_list_inj2, Hiff.
        unfold Rdiv in Hv. apply Rmult_integral in Hv as [Hv|Hv]; [exact Hv|].
        pose proof (Rinv_0_lt_compat _ HINR). lra.
      * intros Heq. rewrite (proj2 Hiff) by (now rewrite Heq). lra.
Qed.

Lemma rmse_is_zero_iff_equal_witness :
  exists v, rmse [# 1; 2] [# 1; 4] = Some v /\ 0 <= v.
Proof.
  destruct (proj2 (rmse_is_zero_iff_equal 2 [# 1; 2] [# 1; 4])) as (v & Hv & Hpos & _);
    [lia|].
  exists v. auto.
Defined.

Lemma py_sum_scale (c : R) (l : list R) :
  py_sum ((fun xi => xi * xi) <$> ((Rmult c) <$> l))
    = c * c * py_sum ((fun xi => xi * xi) <$> l).
Proof.
  induction l as [|x l IH]; [unfold py_sum; simpl; lra|].
  rewrite !fmap_cons, !py_sum_cons, IH. lra.
Qed.

Lemma zip_with_Rminus_scale (c : R) (l1 l2 : list R) :
  zip_with Rminus (Rmult c <$> l1) (Rmult c <$> l2) = Rmult c <$> zip_with Rminus l1 l2.
Proof.
  revert l2. induction l1 as [|a l1 IH]; intros [|b l2]; simpl; try reflexivity.
  rewrite IH. f_equal. lra.
Qed.

Lemma zip_with_Rminus_swap (l1 l2 : list R) :
  (fun xi => xi * xi) <$> zip_with Rminus l1 l2
    = (fun xi => xi * xi) <$> zip_with Rminus l2 l1.
Proof.
  revert l2. induction l1 as [|a l1 IH]; intros [|b l2]; simpl; try reflexivity.
  rewrite IH. f_equal. lra.
Qed.

(** X19: [rmse] returns the mean of the squared differences and takes no
    square root: multiplying [true] and [pred] by c multiplies the result
    by c * c, not by |c|; and the result does not change when the two
    arguments are exchanged. *)
Theorem rmse_scales_quadratically (n : nat) (c : R) (true_ pred : vec R n) :
  rmse (vmap (Rmult c) true_) (vmap (Rmult c) pred)
    = (fun v => c * c * v) <$> rmse true_ pred /\
  rmse pred true_ = rmse true_ pred.
Proof.
  rewrite !rmse_value, !vec_to_list_map, zip_with_Rminus_scale, py_sum_scale.
  rewrite (zip_with_Rminus_swap (vec_to_list pred) (vec_to_list true_)).
  destruct (n =? 0)%nat; [split; reflexivity|].
  split; [|reflexivity]. cbn. f_equal. unfold Rdiv. ring.
Qed.
